(** * Honeywell Lyric integration: [homeassistant/components/lyric/__init__.py]

    A shallow embedding of the integration's set-up hooks, of the vendor
    session wrapper [LyricClient] and of the entity base class
    [LyricEntity], followed by the properties the design document states
    about them.

    Python objects that are shared by reference (the vendor SDK's client,
    its locations and thermostats, the wrapper) live in a heap of objects
    indexed by addresses.  Code that can raise runs in a state-and-exception
    monad in which, as in Python, an exception does not roll back the
    mutations made before it. *)

From stdpp Require Import base option list strings gmap.

Set Default Proof Using "Type".

(** ** Exceptions and the state-and-exception monad *)

Inductive exn : Type :=
  | KeyError (key : string)
  | AttributeError (attr : string)
  | NotImplementedError
  | HostError (msg : string).

Inductive outcome (A : Type) : Type :=
  | Return (a : A)
  | Raise (e : exn).
Arguments Return {A} a.
Arguments Raise {A} e.

Definition returned {A} (r : outcome A) : Prop :=
  match r with Return _ => True | Raise _ => False end.

Definition raised {A} (r : outcome A) : Prop :=
  match r with Return _ => False | Raise _ => True end.

#[global] Instance returned_dec {A} (r : outcome A) : Decision (returned r).
Proof. destruct r; apply _. Defined.
#[global] Instance raised_dec {A} (r : outcome A) : Decision (raised r).
Proof. destruct r; apply _. Defined.

(** An operation that reports its success by a boolean has failed when it
    has raised or has returned [False]. *)
Definition failed (r : outcome bool) : Prop :=
  match r with Return true => False | _ => True end.

#[global] Instance failed_dec (r : outcome bool) : Decision (failed r).
Proof. destruct r as [[]|]; apply _. Defined.

(** A computation over a mutable state [S]: it ends by returning a value
    or by raising, and in both cases hands back the state it reached. *)
Definition M (S A : Type) : Type := S → outcome A * S.

Definition ret {S A} (a : A) : M S A := λ s, (Return a, s).

Definition bind {S A B} (m : M S A) (k : A → M S B) : M S B :=
  λ s, match m s with
       | (Return a, s') => k a s'
       | (Raise e, s') => (Raise e, s')
       end.

Definition raise {S A} (e : exn) : M S A := λ s, (Raise e, s).
Definition gets {S A} (f : S → A) : M S A := λ s, (Return (f s), s).
Definition modify {S} (f : S → S) : M S unit := λ s, (Return tt, f s).

(** Lifting of a partial read ([None] is the exception [e]). *)
Definition expect {S A} (e : exn) (o : option A) : M S A :=
  match o with Some a => ret a | None => raise e end.

Declare Scope py_scope.
Delimit Scope py_scope with py.
Notation "x <- m ;; k" := (bind m (λ x, k))
  (at level 100, m at next level, right associativity) : py_scope.
Notation "m ;;; k" := (bind m (λ _, k))
  (at level 100, right associativity) : py_scope.
Open Scope py_scope.

(** [preserves proj m]: running [m] leaves the component [proj] of the
    state as it was, whether [m] returns or raises. *)
Definition preserves {S A T} (proj : S → T) (m : M S A) : Prop :=
  ∀ s, proj (snd (m s)) = proj s.

(** [d[key]] on a dict: [KeyError] when the key is missing. *)
Definition getitem {S V} (d : gmap string V) (key : string) : M S V :=
  expect (KeyError key) (d !! key).

(** A generator body is embedded as the computation of the list of the
    values it yields, in order: [yield_] yields one value and [for_yield]
    is a [for] loop whose body yields. *)
Definition yield_ {S Y} (y : Y) : M S (list Y) := ret [y].

Fixpoint for_yield {S A Y} (xs : list A) (body : A → M S (list Y))
    : M S (list Y) :=
  match xs with
  | [] => ret []
  | x :: xs' =>
      ys <- body x ;;
      zs <- for_yield xs' body ;;
      ret (ys ++ zs)
  end.

(** A list comprehension [[f x for x in xs]] whose element expression can
    raise. *)
Fixpoint comprehension {S A B} (f : A → M S B) (xs : list A) : M S (list B) :=
  match xs with
  | [] => ret []
  | x :: xs' =>
      y <- f x ;;
      ys <- comprehension f xs' ;;
      ret (y :: ys)
  end.

(** [asyncio.gather] over a list of awaitables, without
    [return_exceptions]: every awaitable is
    started and runs, the results are collected in order, and the first
    exception is propagated to the awaiting caller.  When several
    awaitables raise, [asyncio] propagates the exception raised first in
    time; the interleaving is not modelled and the one of the first
    awaitable of the list stands for it. *)
Fixpoint gather {S A} (aws : list (M S A)) : M S (list A) :=
  λ s, match aws with
       | [] => (Return [], s)
       | aw :: aws' =>
           let '(r, s1) := aw s in
           let '(rs, s2) := gather aws' s1 in
           (match r, rs with
            | Raise e, _ => Raise e
            | Return _, Raise e => Raise e
            | Return a, Return l => Return (a :: l)
            end, s2)
       end.

(** ** The object heap: vendor SDK objects and the wrapper *)

Definition addr := positive.

(** A thermostat of the vendor SDK (the attributes this module reads). *)
Record Thermostat := mkThermostat {
  device_id : string;        (* [device.id] *)
  macID : string;
  device_name : string;      (* [device.name] *)
}.

(** A location of the vendor SDK with its thermostats. *)
Record Location := mkLocation {
  name : string;
  thermostats : list addr;
}.

(** The vendor client session, [lyric.Lyric]. *)
Record Lyric := mkLyric {
  locations : list addr;
}.

(** [LyricClient] instances: the attributes set by [__init__]. *)
Record LyricClient := mkLyricClient {
  lyric : addr;
  _location : list string;
}.

Inductive Obj : Type :=
  | OThermostat (t : Thermostat)
  | OLocation (l : Location)
  | OLyric (l : Lyric)
  | OLyricClient (c : LyricClient).

#[global] Instance Thermostat_eq_dec : EqDecision Thermostat.
Proof. solve_decision. Defined.
#[global] Instance Location_eq_dec : EqDecision Location.
Proof. solve_decision. Defined.
#[global] Instance Lyric_eq_dec : EqDecision Lyric.
Proof. solve_decision. Defined.
#[global] Instance LyricClient_eq_dec : EqDecision LyricClient.
Proof. solve_decision. Defined.
#[global] Instance Obj_eq_dec : EqDecision Obj.
Proof. solve_decision. Defined.

Abbreviation Heap := (gmap addr Obj).

Definition as_location (o : Obj) : option Location :=
  match o with OLocation l => Some l | _ => None end.
Definition as_lyric (o : Obj) : option Lyric :=
  match o with OLyric l => Some l | _ => None end.
Definition as_client (o : Obj) : option LyricClient :=
  match o with OLyricClient c => Some c | _ => None end.

(** What an attribute read finds in the heap, if the object has the
    attribute. *)
Definition lyric_of (h : Heap) (self : addr) : option addr :=
  lyric <$> (h !! self ≫= as_client).
Definition locations_of (h : Heap) (ly : addr) : option (list addr) :=
  locations <$> (h !! ly ≫= as_lyric).
Definition thermostats_at (h : Heap) (location : addr) : option (list addr) :=
  thermostats <$> (h !! location ≫= as_location).
Definition name_of (h : Heap) (location : addr) : option string :=
  name <$> (h !! location ≫= as_location).

(** Attribute reads through a reference; an object without the attribute
    raises [AttributeError]. *)
Definition attr_lyric (self : addr) : M Heap addr :=
  h <- gets id ;;
  expect (AttributeError "lyric") (lyric_of h self).

Definition attr_locations (ly : addr) : M Heap (list addr) :=
  h <- gets id ;;
  expect (AttributeError "locations") (locations_of h ly).

Definition attr_thermostats (location : addr) : M Heap (list addr) :=
  h <- gets id ;;
  expect (AttributeError "thermostats") (thermostats_at h location).

Definition attr_name (location : addr) : M Heap string :=
  h <- gets id ;;
  expect (AttributeError "name") (name_of h location).

(** Allocation of a new object at an address not in use. *)
Definition alloc (o : Obj) : M Heap addr :=
  λ h, let a := fresh (dom h) in (Return a, <[a := o]> h).

(** ** [class LyricClient] *)

(** [LyricClient(lyric)]: allocation followed by [__init__]. *)
Definition LyricClient_new (lyric : addr) : M Heap addr :=
  ls <- attr_locations lyric ;;
  names <- comprehension attr_name ls ;;
  alloc (OLyricClient {| lyric := lyric; _location := names |}).

(** [LyricClient.devices], enumerated to the end. *)
Definition devices (self : addr) : M Heap (list (addr * addr)) :=
  ly <- attr_lyric self ;;
  ls <- attr_locations ly ;;
  for_yield ls (λ location,
    ds <- attr_thermostats location ;;
    for_yield ds (λ device, yield_ (location, device))).

(** ** Constants

    The names imported from [.const] and [homeassistant.const] are kept
    abstract: every result below holds whatever strings they denote. *)
Class Consts := {
  DOMAIN : string;
  DATA_LYRIC_CLIENT : string;
  CONF_CLIENT_ID : string;
  CONF_CLIENT_SECRET : string;
  CONF_LYRIC_CONFIG_FILE : string;
  SERVICE_HOLD_TIME : string;
  CONF_TOKEN : string;
}.

Definition LYRIC_COMPONENTS : list string := ["climate"; "sensor"].

(** ** The host: config entries, shared data, services *)

(** Values persisted in a config entry: strings, and dicts such as the
    OAuth token. *)
Inductive value : Type :=
  | VStr (s : string)
  | VDict (d : gmap string string).

Record ConfigEntry := mkConfigEntry {
  entry_id : string;
  entry_data : gmap string value;      (* [entry.data] *)
}.

(** [config_entry_oauth2_flow.LocalOAuth2Implementation], with the two
    attributes that [async_setup_entry] sets on it. *)
Record LocalOAuth2Implementation := mkImplementation {
  impl_domain : string;
  client_id : string;
  client_secret : string;
  authorize_url : string;
  token_url : string;
  token : option value;
  token_cache_file : option string;
}.

Definition set_token (t : value) (i : LocalOAuth2Implementation)
    : LocalOAuth2Implementation :=
  mkImplementation (impl_domain i) (client_id i) (client_secret i)
    (authorize_url i) (token_url i) (Some t) (token_cache_file i).
Definition set_token_cache_file (f : string) (i : LocalOAuth2Implementation)
    : LocalOAuth2Implementation :=
  mkImplementation (impl_domain i) (client_id i) (client_secret i)
    (authorize_url i) (token_url i) (token i) (Some f).

(** The keyword arguments of the vendor constructor [Lyric(...)]. *)
Record LyricArgs := mkLyricArgs {
  arg_app_name : string;
  arg_client_id : string;
  arg_client_secret : string;
  arg_token : option value;
  arg_token_cache_file : option string;
}.

(** The part of the [hass] object this module reads or changes, together
    with a record of what it asks the host to do. *)
Record HomeAssistant := mkHass {
  hass_data : gmap string (gmap string addr);        (* [hass.data] *)
  services : gset (string * string);                 (* registered services *)
  implementations : list LocalOAuth2Implementation;  (* registered OAuth implementations *)
  tasks : list (string * string);      (* scheduled forwarded setups: entry, platform *)
  unloads : list (string * string);    (* requested forwarded unloads: entry, platform *)
}.

(** The objects a hook works on: the [hass] object and the config entry
    it receives by reference, and the heap of SDK objects. *)
Record State := mkState {
  heap : Heap;
  hass : HomeAssistant;
  entry : ConfigEntry;
}.

Definition set_hass_data (f : gmap string (gmap string addr) → gmap string (gmap string addr))
    (h : HomeAssistant) : HomeAssistant :=
  mkHass (f (hass_data h)) (services h) (implementations h) (tasks h) (unloads h).
Definition set_services (f : gset (string * string) → gset (string * string))
    (h : HomeAssistant) : HomeAssistant :=
  mkHass (hass_data h) (f (services h)) (implementations h) (tasks h) (unloads h).
Definition set_implementations
    (f : list LocalOAuth2Implementation → list LocalOAuth2Implementation)
    (h : HomeAssistant) : HomeAssistant :=
  mkHass (hass_data h) (services h) (f (implementations h)) (tasks h) (unloads h).
Definition set_tasks (f : list (string * string) → list (string * string))
    (h : HomeAssistant) : HomeAssistant :=
  mkHass (hass_data h) (services h) (implementations h) (f (tasks h)) (unloads h).
Definition set_unloads (f : list (string * string) → list (string * string))
    (h : HomeAssistant) : HomeAssistant :=
  mkHass (hass_data h) (services h) (implementations h) (tasks h) (f (unloads h)).

(** Running a computation on one component of the state. *)
Definition on_hass {A} (m : M HomeAssistant A) : M State A :=
  λ s, let '(r, h) := m (hass s) in (r, mkState (heap s) h (entry s)).
Definition on_heap {A} (m : M Heap A) : M State A :=
  λ s, let '(r, h) := m (heap s) in (r, mkState h (hass s) (entry s)).
Definition on_entry {A} (m : M ConfigEntry A) : M State A :=
  λ s, let '(r, e) := m (entry s) in (r, mkState (heap s) (hass s) e).

(** What this module cannot see of the host and of the vendor SDK: each
    of these calls may raise. *)
Class Host := {
  (* [config_entry_oauth2_flow.async_get_config_entry_implementation] *)
  async_get_config_entry_implementation :
    HomeAssistant → ConfigEntry → outcome LocalOAuth2Implementation;
  (* [hass.config.path] *)
  config_path : string → string;
  (* the vendor constructor [Lyric(...)] *)
  Lyric_new : LyricArgs → M Heap addr;
  (* how the unloading of one platform of an entry ends *)
  platform_unload : ConfigEntry → string → outcome bool;
}.

(** Modelled from the spec: [LyricFlowHandler.async_register_implementation]
    is host code; it registers the OAuth2 local-implementation descriptor.
    [implementations] lists the registrations of this module in their
    order; it does not say what the registry of the host then holds of
    an earlier descriptor. *)
Definition async_register_implementation (impl : LocalOAuth2Implementation)
    : M HomeAssistant unit :=
  modify (set_implementations (λ l, l ++ [impl])).

(** Modelled from the spec: [hass.config_entries.async_update_entry] is host
    code; it replaces the persisted data of the entry. *)
Definition async_update_entry (data : gmap string value) : M ConfigEntry unit :=
  modify (λ e, mkConfigEntry (entry_id e) data).

(** Modelled from the spec: [hass.async_create_task] on
    [async_forward_entry_setup(entry, component)] is host code; the setup
    of the platform is scheduled and not awaited. *)
Definition async_create_task_forward_entry_setup (component : string)
    : M State unit :=
  e <- gets entry ;;
  on_hass (modify (set_tasks (λ l, l ++ [(entry_id e, component)]))).

(** Modelled from the spec: [hass.config_entries.async_forward_entry_unload]
    is host code; the unloading of the platform is requested and its
    outcome, a result or an exception, comes back to the caller. *)
Definition async_forward_entry_unload `{Host} (component : string)
    : M State bool :=
  e <- gets entry ;;
  on_hass (modify (set_unloads (λ l, l ++ [(entry_id e, component)]))) ;;;
  λ s, (platform_unload e component, s).

(** Modelled from the spec: [hass.services.async_remove] is host code; it
    removes the registration of a service. *)
Definition services_async_remove (domain service : string)
    : M HomeAssistant unit :=
  modify (set_services (λ r, r ∖ {[ (domain, service) ]})).

(** A [for] loop over a list. *)
Fixpoint for_ {S A} (xs : list A) (body : A → M S unit) : M S unit :=
  match xs with
  | [] => ret tt
  | x :: xs' => body x ;;; for_ xs' body
  end.

(** [del d[key]]: [KeyError] when the key is missing. *)
Definition delitem {V} (key : string) : M (gmap string V) unit :=
  λ d, match d !! key with
       | Some _ => (Return tt, delete key d)
       | None => (Raise (KeyError key), d)
       end.

Definition on_hass_data {A} (m : M (gmap string (gmap string addr)) A)
    : M HomeAssistant A :=
  λ h, let '(r, d) := m (hass_data h) in (r, set_hass_data (λ _, d) h).

(** ** The set-up hooks *)

Section hooks.
Context `{Consts} `{Host}.

(** [async_setup(hass, config)] *)
Definition async_setup (config : gmap string (gmap string string))
    : M HomeAssistant bool :=
  modify (set_hass_data (λ d, <[DOMAIN := ∅]> d)) ;;;
  if decide (config !! DOMAIN = None) then ret true
  else
    domain_config <- getitem config DOMAIN ;;
    id <- getitem domain_config CONF_CLIENT_ID ;;
    secret <- getitem domain_config CONF_CLIENT_SECRET ;;
    async_register_implementation
      (mkImplementation DOMAIN id secret
         "https://api.honeywell.com/oauth2/authorize"
         "https://api.honeywell.com/oauth2/token" None None) ;;;
    ret true.

(** [async_setup_entry(hass, entry)].  The two attribute writes change
    the object that the host has returned; they are kept on the value at
    hand and not followed into the registry of the host:
    [implementations] lists the descriptors as they were registered. *)
Definition async_setup_entry : M State bool :=
  data <- gets (λ s, entry_data (entry s)) ;;
  (if decide (data !! "auth_implementation" = None) then
     on_entry (async_update_entry (<["auth_implementation" := VStr DOMAIN]> data))
   else ret tt) ;;;
  implementation <- (λ s, (async_get_config_entry_implementation (hass s) (entry s), s)) ;;
  data <- gets (λ s, entry_data (entry s)) ;;
  tok <- getitem data CONF_TOKEN ;;
  let implementation := set_token tok implementation in
  let implementation :=
    set_token_cache_file (config_path CONF_LYRIC_CONFIG_FILE) implementation in
  lyric <- on_heap (Lyric_new
             (mkLyricArgs "Home Assistant"
                (client_id implementation) (client_secret implementation)
                (token implementation) (token_cache_file implementation))) ;;
  client <- on_heap (LyricClient_new lyric) ;;
  on_hass (modify (set_hass_data (λ d,
    <[DOMAIN := <[DATA_LYRIC_CLIENT := client]> (default ∅ (d !! DOMAIN))]> d))) ;;;
  for_ LYRIC_COMPONENTS async_create_task_forward_entry_setup ;;;
  ret true.

(** [async_unload_entry(hass, entry)] *)
Definition async_unload_entry : M State bool :=
  gather (async_forward_entry_unload <$> LYRIC_COMPONENTS) ;;;
  on_hass (services_async_remove DOMAIN SERVICE_HOLD_TIME) ;;;
  on_hass (on_hass_data (delitem DOMAIN)) ;;;
  ret true.

End hooks.

(** ** [class LyricEntity] and [class LyricDeviceEntity] *)

Module LyricEntity.

Record t := mk {
  _unique_id : string;
  _name : string;
  _icon : string;
  _device_class : string;
  _available : bool;
  device : addr;
  location : addr;
}.

(** A concrete entity class derived from [LyricEntity]: the body it
    gives to the hook [_lyric_update], or [None] when it does not
    override it. *)
Record class := mkClass {
  lyric_update_override : option (M t unit);
}.

(** [LyricEntity.__init__] *)
Definition __init__ (device location : addr)
    (unique_id name icon device_class : string) : t :=
  {| _unique_id := unique_id; _name := name; _icon := icon;
     _device_class := device_class; _available := false;
     device := device; location := location |}.

Definition unique_id (self : t) : string := _unique_id self.
Definition name (self : t) : string := _name self.
Definition icon (self : t) : string := _icon self.
Definition device_class (self : t) : string := _device_class self.
Definition available (self : t) : bool := _available self.

Definition set_available (b : bool) (self : t) : t :=
  mk (_unique_id self) (_name self) (_icon self)
     (_device_class self) b (device self) (location self).

(** [LyricEntity._lyric_update], the default body of the hook. *)
Definition _lyric_update : M t unit :=
  raise NotImplementedError.

(** Method resolution of [self._lyric_update] for an instance of [cls]. *)
Definition resolve_lyric_update (cls : class) : M t unit :=
  match lyric_update_override cls with
  | Some body => body
  | None => _lyric_update
  end.

(** [LyricEntity.async_update] *)
Definition async_update (cls : class) : M t unit :=
  resolve_lyric_update cls ;;;
  modify (set_available true).

End LyricEntity.

Module LyricDeviceEntity.

Record info := mkInfo {
  identifiers : gset (string * string);
  info_name : string;
  model : string;
  manufacturer : string;
}.

(** [LyricDeviceEntity.device_info] *)
Definition device_info `{Consts} (self : LyricEntity.t) : M Heap info :=
  h <- gets id ;;
  match h !! LyricEntity.device self with
  | Some (OThermostat d) =>
      let mac_address := macID d in
      ret {| identifiers := {[ (DOMAIN, mac_address) ]};
             info_name := device_name d;
             model := device_id d;
             manufacturer := "Honeywell" |}
  | _ => raise (AttributeError "macID")
  end.

End LyricDeviceEntity.

(** ** Notions used in the statements *)

(** The outcome of a join, from the outcomes of its members in order. *)
Fixpoint join_outcomes {A} (rs : list (outcome A)) : outcome (list A) :=
  match rs with
  | [] => Return []
  | r :: rs' =>
      match r, join_outcomes rs' with
      | Raise e, _ => Raise e
      | Return _, Raise e => Raise e
      | Return a, Return l => Return (a :: l)
      end
  end.

(** The collections that [devices] iterates are the same in two heaps:
    the wrapper refers to the same vendor client, the client has the same
    list of locations, and each of these has the same list of
    thermostats.  Every other object and attribute may differ. *)
Definition same_collections (self : addr) (h1 h2 : Heap) : Prop :=
  lyric_of h1 self = lyric_of h2 self ∧
  match lyric_of h1 self with
  | None => True
  | Some ly =>
      locations_of h1 ly = locations_of h2 ly ∧
      match locations_of h1 ly with
      | None => True
      | Some ls => Forall (λ l, thermostats_at h1 l = thermostats_at h2 l) ls
      end
  end.

#[global] Instance same_collections_dec self h1 h2 :
  Decision (same_collections self h1 h2).
Proof. unfold same_collections. repeat case_match; apply _. Defined.

(** The entry as [async_setup_entry] leaves it. *)
Definition backfilled `{Consts} (e : ConfigEntry) : ConfigEntry :=
  if decide (entry_data e !! "auth_implementation" = None) then
    mkConfigEntry (entry_id e)
      (<["auth_implementation" := VStr DOMAIN]> (entry_data e))
  else e.

(** The platforms whose setup, or unloading, was forwarded between two
    states of the [hass] object. *)
Definition forwarded_setups (before after : HomeAssistant) : list string :=
  snd <$> drop (length (tasks before)) (tasks after).
Definition forwarded_unloads (before after : HomeAssistant) : list string :=
  snd <$> drop (length (unloads before)) (unloads after).

(** The same state, for a hook called on another entry. *)
Definition with_entry (e : ConfigEntry) (s : State) : State :=
  mkState (heap s) (hass s) e.

(** ** Sample data

    A set of constants, two hosts and a few states on which the hooks and
    the wrapper can be run. *)

Definition sample_consts : Consts := {|
  DOMAIN := "lyric";
  DATA_LYRIC_CLIENT := "lyric_client";
  CONF_CLIENT_ID := "client_id";
  CONF_CLIENT_SECRET := "client_secret";
  CONF_LYRIC_CONFIG_FILE := "lyric.conf";
  SERVICE_HOLD_TIME := "set_hold_time";
  CONF_TOKEN := "token";
|}.

Definition sample_implementation : LocalOAuth2Implementation :=
  mkImplementation "lyric" "id" "secret"
    "https://api.honeywell.com/oauth2/authorize"
    "https://api.honeywell.com/oauth2/token" None None.

(** A host on which every call succeeds; the vendor client it constructs
    knows no location. *)
Definition quiet_host : Host := {|
  async_get_config_entry_implementation := λ _ _, Return sample_implementation;
  config_path := λ f, "/config/" +:+ f;
  Lyric_new := λ _, alloc (OLyric (mkLyric []));
  platform_unload := λ _ _, Return true;
|}.

(** A host on which the unloading of the sensor platform raises. *)
Definition sensor_fails_host : Host := {|
  async_get_config_entry_implementation := λ _ _, Return sample_implementation;
  config_path := λ f, "/config/" +:+ f;
  Lyric_new := λ _, alloc (OLyric (mkLyric []));
  platform_unload := λ _ component,
    if decide (component = "sensor") then Raise (HostError "unload failed")
    else Return true;
|}.

(** A host on which the unloading of the sensor platform does not raise
    but reports its failure by returning [False]. *)
Definition sensor_refuses_host : Host := {|
  async_get_config_entry_implementation := λ _ _, Return sample_implementation;
  config_path := λ f, "/config/" +:+ f;
  Lyric_new := λ _, alloc (OLyric (mkLyric []));
  platform_unload := λ _ component,
    if decide (component = "sensor") then Return false else Return true;
|}.

Definition sample_entry : ConfigEntry :=
  mkConfigEntry "entry-1" {[ "token" := VDict {[ "access_token" := "abc" ]} ]}.

Definition empty_hass : HomeAssistant := mkHass ∅ ∅ [] [] [].

(** The [hass] object once an entry is set up: the wrapper at address 2
    is stored and the hold-time service is registered. *)
Definition loaded_hass : HomeAssistant :=
  mkHass {[ "lyric" := {[ "lyric_client" := 2%positive ]} ]}
         {[ ("lyric", "set_hold_time") ]} [] [] [].

Definition fresh_state : State := mkState ∅ empty_hass sample_entry.
Definition loaded_state : State :=
  mkState {[ 1%positive := OLyric (mkLyric []);
             2%positive := OLyricClient (mkLyricClient 1%positive []) ]}
          loaded_hass sample_entry.

(** Two entries are set up, one after the other, and the first one is
    unloaded: the state in which the second one is then unloaded. *)
Definition second_entry : ConfigEntry :=
  mkConfigEntry "entry-2" {[ "token" := VDict {[ "access_token" := "def" ]} ]}.

Definition second_entry_left : State :=
  let setup := @async_setup_entry sample_consts quiet_host in
  let unload := @async_unload_entry sample_consts quiet_host in
  let s1 := snd (setup (with_entry sample_entry fresh_state)) in
  let first := entry s1 in
  let s2 := snd (setup (with_entry second_entry s1)) in
  let second := entry s2 in
  let s3 := snd (unload (with_entry first s2)) in
  with_entry second s3.

(** A class that does not override [_lyric_update], and one whose
    override returns. *)
Definition plain_class : LyricEntity.class := LyricEntity.mkClass None.
Definition polling_class : LyricEntity.class :=
  LyricEntity.mkClass (Some (ret tt)).

(** A heap with a wrapper (address 1) around a vendor client (address 2)
    that knows two locations, with two and with three thermostats. *)
Definition two_sites : Heap :=
  {[ 1%positive := OLyricClient (mkLyricClient 2%positive ["Home"; "Cabin"]);
     2%positive := OLyric (mkLyric [3; 4]%positive);
     3%positive := OLocation (mkLocation "Home" [10; 11]%positive);
     4%positive := OLocation (mkLocation "Cabin" [12; 13; 14]%positive);
     10%positive := OThermostat (mkThermostat "LCC-10" "00D02D000010" "Hall");
     11%positive := OThermostat (mkThermostat "LCC-11" "00D02D000011" "Attic");
     12%positive := OThermostat (mkThermostat "LCC-12" "00D02D000012" "Lounge");
     13%positive := OThermostat (mkThermostat "LCC-13" "00D02D000013" "Loft");
     14%positive := OThermostat (mkThermostat "LCC-14" "00D02D000014" "Porch") ]}.

(** The same heap after the vendor SDK renamed a location and created an
    unrelated object: the collections are what they were. *)
Definition two_sites_later : Heap :=
  <[ 20%positive := OThermostat (mkThermostat "LCC-20" "00D02D000020" "Spare") ]>
    (<[ 3%positive := OLocation (mkLocation "House" [10; 11]%positive) ]> two_sites).

(** The same heap after a thermostat was removed from the second
    location. *)
Definition two_sites_shrunk : Heap :=
  <[ 4%positive := OLocation (mkLocation "Cabin" [12; 14]%positive) ]> two_sites.

(** A wrapper whose vendor client knows no location. *)
Definition no_site : Heap :=
  {[ 1%positive := OLyricClient (mkLyricClient 2%positive []);
     2%positive := OLyric (mkLyric []) ]}.

(** ** The generator behind [devices]

    [devices] above is the enumeration to the end.  The generator object
    that a call returns runs on demand: it is either not started yet,
    or suspended at the [yield] with the thermostats still to come at the
    current location and the locations still to come, or finished (by
    running off the end of the loops or by an exception).  The thermostats and
    locations still to come are those of the lists as they were read;
    this is what the iterators of the two loops deliver as long as the
    vendor SDK does not change these lists in place. *)
Inductive generator : Type :=
  | Created (self : addr)
  | Suspended (location : addr) (devs : list addr) (locs : list addr)
  | Finished.

(** The outer loop takes up with the locations [locs]: it runs to the
    next [yield], to the end ([None] stands for [StopIteration]) or to an
    exception. *)
Fixpoint resume_outer (h : Heap) (locs : list addr)
    : outcome (option (addr * addr)) * generator :=
  match locs with
  | [] => (Return None, Finished)
  | location :: locs' =>
      match thermostats_at h location with
      | None => (Raise (AttributeError "thermostats"), Finished)
      | Some [] => resume_outer h locs'
      | Some (device :: devs) =>
          (Return (Some (location, device)), Suspended location devs locs')
      end
  end.

(** [next(generator)] in heap [h]. *)
Definition gen_next (h : Heap) (g : generator)
    : outcome (option (addr * addr)) * generator :=
  match g with
  | Created self =>
      match lyric_of h self with
      | None => (Raise (AttributeError "lyric"), Finished)
      | Some ly =>
          match locations_of h ly with
          | None => (Raise (AttributeError "locations"), Finished)
          | Some locs => resume_outer h locs
          end
      end
  | Suspended location (device :: devs) locs =>
      (Return (Some (location, device)), Suspended location devs locs)
  | Suspended location [] locs => resume_outer h locs
  | Finished => (Return None, Finished)
  end.

(** [list(generator)] in a heap that does not change meanwhile, with at
    most [fuel] calls of [next]; [None] when the calls do not suffice. *)
Fixpoint exhaust (fuel : nat) (h : Heap) (g : generator)
    : option (outcome (list (addr * addr))) :=
  match fuel with
  | 0 => None
  | S fuel' =>
      match gen_next h g with
      | (Raise e, _) => Some (Raise e)
      | (Return None, _) => Some (Return [])
      | (Return (Some p), g') =>
          match exhaust fuel' h g' with
          | Some (Return ps) => Some (Return (p :: ps))
          | r => r
          end
      end
  end.

(** The first [n] values of a generator, with the state it is left in;
    an exception ends the taking and is dropped. *)
Fixpoint take_from (n : nat) (h : Heap) (g : generator)
    : list (addr * addr) * generator :=
  match n with
  | 0 => ([], g)
  | S n' =>
      match gen_next h g with
      | (Return (Some p), g') =>
          let '(ps, g'') := take_from n' h g' in (p :: ps, g'')
      | (_, g') => ([], g')
      end
  end.

(** The number of thermostats at the locations [locs] that can be
    read. *)
Definition thermostat_count (h : Heap) (locs : list addr) : nat :=
  sum_list ((λ l, length (default [] (thermostats_at h l))) <$> locs).

(** ** More sample data *)

Definition configured : gmap string (gmap string string) :=
  {[ "lyric" := {[ "client_id" := "abc"; "client_secret" := "xyz" ]};
     "http" := {[ "server_port" := "8123" ]} ]}.

Definition half_configured : gmap string (gmap string string) :=
  {[ "lyric" := {[ "client_id" := "abc" ]} ]}.

(** A host on which the OAuth implementation of the entry cannot be
    resolved. *)
Definition unresolved_host : Host := {|
  async_get_config_entry_implementation :=
    λ _ _, Raise (HostError "Implementation not available");
  config_path := λ f, "/config/" +:+ f;
  Lyric_new := λ _, alloc (OLyric (mkLyric []));
  platform_unload := λ _ _, Return true;
|}.

(** A host whose vendor constructor finds the two locations of
    [two_sites], at addresses 3 and 4. *)
Definition sites_host : Host := {|
  async_get_config_entry_implementation := λ _ _, Return sample_implementation;
  config_path := λ f, "/config/" +:+ f;
  Lyric_new := λ _, alloc (OLyric (mkLyric [3; 4]%positive));
  platform_unload := λ _ _, Return true;
|}.

Definition tokenless_state : State :=
  mkState ∅ empty_hass (mkConfigEntry "entry-3" ∅).

(** A state with data of another integration and the marker already in
    the entry. *)
Definition marked_entry : ConfigEntry :=
  mkConfigEntry "entry-4"
    {[ "token" := VDict {[ "access_token" := "abc" ]};
       "auth_implementation" := VStr "cloud" ]}.

Definition busy_hass : HomeAssistant :=
  mkHass {[ "hue" := {[ "bridge" := 7%positive ]};
            "lyric" := {[ "other" := 8%positive ]} ]}
         {[ ("lyric", "set_hold_time"); ("light", "turn_on") ]} [] [] [].

Definition busy_state : State := mkState two_sites busy_hass marked_entry.

(** The hold-time service is registered although the shared state has no
    entry for the domain. *)
Definition orphan_service_state : State :=
  mkState ∅ (mkHass ∅ {[ ("lyric", "set_hold_time") ]} [] [] []) sample_entry.

(** Two entities bound to the thermostat at address 10. *)
Definition hall_temperature : LyricEntity.t :=
  LyricEntity.__init__ 10%positive 3%positive "LCC-10_temp" "Hall temperature"
    "mdi:thermometer" "temperature".
Definition hall_climate : LyricEntity.t :=
  LyricEntity.__init__ 10%positive 3%positive "LCC-10" "Hall"
    "mdi:thermostat" "climate".

(** A class whose override raises. *)
Definition flaky_class : LyricEntity.class :=
  LyricEntity.mkClass (Some (raise (HostError "timeout"))).

(** A heap in which the second location of the vendor client cannot be
    read. *)
Definition second_site_lost : Heap := delete 4%positive two_sites.

(** * Properties *)

(** ** Reasoning on computations *)

Lemma bind_returns {S A B} (m : M S A) (k : A → M S B) s a s' :
  m s = (Return a, s') → bind m k s = k a s'.
Proof. unfold bind. by intros ->. Qed.

Lemma bind_raises {S A B} (m : M S A) (k : A → M S B) s e s' :
  m s = (Raise e, s') → bind m k s = (Raise e, s').
Proof. unfold bind. by intros ->. Qed.

Lemma bind_inv_returns {S A B} (m : M S A) (k : A → M S B) s b s' :
  bind m k s = (Return b, s') →
  ∃ a s1, m s = (Return a, s1) ∧ k a s1 = (Return b, s').
Proof.
  unfold bind. destruct (m s) as [[a|e] s1]; [eauto | discriminate].
Qed.

Create HintDb frame discriminated.

Section preserves.
Context {S T : Type} (proj : S → T).

Lemma preserves_ret {A} (a : A) : preserves proj (ret a).
Proof. done. Qed.

Lemma preserves_raise {A} e : preserves proj (raise (A:=A) e).
Proof. done. Qed.

Lemma preserves_gets {A} (f : S → A) : preserves proj (gets f).
Proof. done. Qed.

Lemma preserves_expect {A} e (o : option A) : preserves proj (expect e o).
Proof. by destruct o. Qed.

Lemma preserves_getitem {V} (d : gmap string V) key :
  preserves proj (getitem d key).
Proof. apply preserves_expect. Qed.

Lemma preserves_pure {A} (r : S → outcome A) : preserves proj (λ s, (r s, s)).
Proof. done. Qed.

Lemma preserves_modify (f : S → S) :
  (∀ s, proj (f s) = proj s) → preserves proj (modify f).
Proof. intros Hf s. apply Hf. Qed.

Lemma preserves_bind {A B} (m : M S A) (k : A → M S B) :
  preserves proj m → (∀ a, preserves proj (k a)) → preserves proj (bind m k).
Proof.
  intros Hm Hk s. unfold bind. specialize (Hm s).
  destruct (m s) as [[a|e] s1]; simpl in *; [|done].
  by rewrite Hk.
Qed.

Lemma preserves_if {A} (P : Prop) `{Decision P} (m1 m2 : M S A) :
  preserves proj m1 → preserves proj m2 →
  preserves proj (if decide P then m1 else m2).
Proof. by case_decide. Qed.

Lemma preserves_for_yield {A Y} (xs : list A) (body : A → M S (list Y)) :
  (∀ x, preserves proj (body x)) → preserves proj (for_yield xs body).
Proof.
  intros Hbody. induction xs as [|x xs IH]; simpl.
  - apply preserves_ret.
  - apply preserves_bind; [apply Hbody|]. intros ys.
    apply preserves_bind; [apply IH|]. intros zs. apply preserves_ret.
Qed.

Lemma preserves_comprehension {A B} (f : A → M S B) (xs : list A) :
  (∀ x, preserves proj (f x)) → preserves proj (comprehension f xs).
Proof.
  intros Hf. induction xs as [|x xs IH]; simpl.
  - apply preserves_ret.
  - apply preserves_bind; [apply Hf|]. intros y.
    apply preserves_bind; [apply IH|]. intros ys. apply preserves_ret.
Qed.

Lemma preserves_for_ {A} (xs : list A) (body : A → M S unit) :
  (∀ x, preserves proj (body x)) → preserves proj (for_ xs body).
Proof.
  intros Hbody. induction xs as [|x xs IH]; simpl.
  - apply preserves_ret.
  - apply preserves_bind; [apply Hbody | intros _; apply IH].
Qed.

Lemma preserves_gather {A} (aws : list (M S A)) :
  Forall (preserves proj) aws → preserves proj (gather aws).
Proof.
  induction 1 as [|aw aws Haw _ IH]; intros s; simpl; [done|].
  specialize (Haw s). destruct (aw s) as [r s1]. simpl in Haw.
  specialize (IH s1). destruct (gather aws s1) as [rs s2]. simpl in *.
  congruence.
Qed.
End preserves.

#[global] Hint Resolve preserves_ret preserves_raise preserves_gets
  preserves_expect preserves_getitem preserves_pure preserves_bind
  preserves_if preserves_for_yield preserves_comprehension
  preserves_for_ : frame.

(** A component of the state other than the one a computation runs on is
    not touched. *)
Lemma preserves_on_heap {A T} (proj : State → T) (m : M Heap A) :
  (∀ s h, proj (mkState h (hass s) (entry s)) = proj s) →
  preserves proj (on_heap m).
Proof.
  intros Hproj s. unfold on_heap. destruct (m (heap s)) as [r h]. apply Hproj.
Qed.

Lemma preserves_on_hass {A T} (proj : State → T) (m : M HomeAssistant A) :
  (∀ s, proj (mkState (heap s) (snd (m (hass s))) (entry s)) = proj s) →
  preserves proj (on_hass m).
Proof.
  intros Hproj s. unfold on_hass. specialize (Hproj s).
  by destruct (m (hass s)) as [r h].
Qed.

Lemma preserves_on_entry {A T} (proj : State → T) (m : M ConfigEntry A) :
  (∀ s, proj (mkState (heap s) (hass s) (snd (m (entry s)))) = proj s) →
  preserves proj (on_entry m).
Proof.
  intros Hproj s. unfold on_entry. specialize (Hproj s).
  by destruct (m (entry s)) as [r e].
Qed.

(** ** The wrapper: attribute reads *)

Lemma attr_lyric_eq self h :
  attr_lyric self h = expect (AttributeError "lyric") (lyric_of h self) h.
Proof. done. Qed.

Lemma attr_locations_eq ly h :
  attr_locations ly h
  = expect (AttributeError "locations") (locations_of h ly) h.
Proof. done. Qed.

Lemma attr_thermostats_eq location h :
  attr_thermostats location h
  = expect (AttributeError "thermostats") (thermostats_at h location) h.
Proof. done. Qed.

Lemma attr_lyric_read_only self : preserves id (attr_lyric self).
Proof. unfold attr_lyric. eauto with frame. Qed.

Lemma attr_locations_read_only ly : preserves id (attr_locations ly).
Proof. unfold attr_locations. eauto with frame. Qed.

Lemma attr_thermostats_read_only l : preserves id (attr_thermostats l).
Proof. unfold attr_thermostats. eauto with frame. Qed.

Lemma attr_name_read_only l : preserves id (attr_name l).
Proof. unfold attr_name. eauto with frame. Qed.

#[global] Hint Resolve attr_lyric_read_only attr_locations_read_only
  attr_thermostats_read_only attr_name_read_only : frame.

(** The inner loop of [devices] pairs every thermostat with the location
    at hand. *)
Lemma inner_loop_eq (location : addr) (ds : list addr) (h : Heap) :
  for_yield ds (λ device, yield_ (location, device)) h
  = (Return (pair location <$> ds), h).
Proof.
  induction ds as [|d ds IH]; [done|].
  simpl. unfold bind, yield_, ret in *. by rewrite IH.
Qed.

(** [devices] leaves the heap alone. *)
Lemma devices_preserves_heap self : preserves id (devices self).
Proof.
  unfold devices.
  apply preserves_bind; [eauto with frame|]. intros ly.
  apply preserves_bind; [eauto with frame|]. intros ls.
  apply preserves_for_yield. intros l.
  apply preserves_bind; [eauto with frame|]. intros ds.
  apply preserves_for_yield. intros d. apply preserves_ret.
Qed.

(** ** The wrapper: what [devices] yields *)

Lemma thermostats_at_location (h : Heap) l lo :
  h !! l = Some (OLocation lo) → thermostats_at h l = Some (thermostats lo).
Proof. unfold thermostats_at. by intros ->. Qed.

(** The body of the outer loop, at a location whose thermostats can be
    read. *)
Lemma outer_body_eq (h : Heap) l ds :
  thermostats_at h l = Some ds →
  (ds <- attr_thermostats l ;;
   for_yield ds (λ device, yield_ (l, device))) h
  = (Return (pair l <$> ds), h).
Proof.
  intros Hds. erewrite bind_returns; [apply inner_loop_eq|].
  by rewrite attr_thermostats_eq, Hds.
Qed.

Lemma outer_loop_eq (h : Heap) ls los :
  Forall2 (λ l lo, h !! l = Some (OLocation lo)) ls los →
  for_yield ls (λ location,
    ds <- attr_thermostats location ;;
    for_yield ds (λ device, yield_ (location, device))) h
  = (Return (concat (zip_with (λ l lo, pair l <$> thermostats lo) ls los)), h).
Proof.
  induction 1 as [|l lo ls los Hl _ IH]; [done|].
  cbn [for_yield zip_with concat].
  erewrite bind_returns;
    [|by apply outer_body_eq, thermostats_at_location].
  by erewrite bind_returns by apply IH.
Qed.

Lemma elem_of_pairs (h : Heap) ls los l d :
  Forall2 (λ l lo, h !! l = Some (OLocation lo)) ls los →
  (l, d) ∈ concat (zip_with (λ l lo, pair l <$> thermostats lo) ls los)
  ↔ ∃ lo, l ∈ ls ∧ h !! l = Some (OLocation lo) ∧ d ∈ thermostats lo.
Proof.
  induction 1 as [|l0 lo0 ls los Hl0 _ IH]; cbn [zip_with concat].
  - split; [by intros ?%elem_of_nil | by intros (? & ?%elem_of_nil & _)].
  - rewrite elem_of_app, IH, list_elem_of_fmap. split.
    + intros [(d' & [= -> ->] & Hd) | (lo & Hl & Hlo & Hd)].
      * exists lo0. by rewrite elem_of_cons; auto.
      * exists lo. by rewrite elem_of_cons; auto.
    + intros (lo & [-> | Hl]%elem_of_cons & Hlo & Hd).
      * left. exists d. split; [done|]. congruence.
      * right. eauto.
Qed.

(** C2.  For a wrapper around a vendor client whose locations can all be
    read, [devices] yields, in order, the pair [(location, thermostat)]
    for every location the client knows and every thermostat of that
    location, and nothing else: a pair is yielded exactly when its
    thermostat belongs to its location.  With no location nothing is
    yielded; with two locations of 2 and 3 thermostats, 5 pairs are. *)
Theorem devices_yields_every_pair
    (h : Heap) (self : addr) (c : LyricClient) (ly : Lyric) (los : list Location) :
  h !! self = Some (OLyricClient c) →
  h !! lyric c = Some (OLyric ly) →
  Forall2 (λ l lo, h !! l = Some (OLocation lo)) (locations ly) los →
  let pairs :=
    concat (zip_with (λ l lo, pair l <$> thermostats lo) (locations ly) los) in
  devices self h = (Return pairs, h)
  ∧ (∀ l d, (l, d) ∈ pairs
       ↔ ∃ lo, l ∈ locations ly ∧ h !! l = Some (OLocation lo)
               ∧ d ∈ thermostats lo)
  ∧ (locations ly = [] → pairs = [])
  ∧ (∀ lo1 lo2, los = [lo1; lo2] →
       length (thermostats lo1) = 2 → length (thermostats lo2) = 3 →
       length pairs = 5).
Proof.
  intros Hself Hly Hlos pairs. repeat split.
  - unfold devices.
    erewrite bind_returns; last first.
    { rewrite attr_lyric_eq. unfold lyric_of. by rewrite Hself. }
    erewrite bind_returns; last first.
    { rewrite attr_locations_eq. unfold locations_of. by rewrite Hly. }
    by apply outer_loop_eq.
  - by apply elem_of_pairs.
  - by apply elem_of_pairs.
  - subst pairs. by intros ->.
  - intros lo1 lo2 -> H2 H3. subst pairs.
    apply Forall2_length in Hlos as Hlen.
    destruct (locations ly) as [|l1 [|l2 [|]]]; try discriminate.
    cbn [zip_with concat]. rewrite !length_app, !length_fmap. simpl. lia.
Qed.

(** The witness of C2: the heap [two_sites]. *)
Lemma devices_yields_every_pair_witness :
  devices 1%positive two_sites
  = (Return [(3, 10); (3, 11); (4, 12); (4, 13); (4, 14)]%positive, two_sites).
Proof.
  apply (devices_yields_every_pair two_sites 1%positive
           (mkLyricClient 2%positive ["Home"; "Cabin"])
           (mkLyric [3; 4]%positive)
           [mkLocation "Home" [10; 11]%positive;
            mkLocation "Cabin" [12; 13; 14]%positive]).
  - reflexivity.
  - reflexivity.
  - compute_done.
Defined.

(** With no location, the enumeration is empty. *)
Example devices_no_site : fst (devices 1%positive no_site) = Return [].
Proof. reflexivity. Qed.

(** C10.  Enumerating [devices] changes nothing: the heap after the
    enumeration is the heap before it, whether the enumeration ends or
    raises.  In particular the wrapper holds the same reference to the
    vendor client and the same list of location names, and every vendor
    SDK object is what it was. *)
Theorem devices_read_only (self : addr) (h : Heap) :
  let h' := snd (devices self h) in
  h' = h
  ∧ lyric_of h' self = lyric_of h self
  ∧ _location <$> (h' !! self ≫= as_client)
    = _location <$> (h !! self ≫= as_client)
  ∧ ∀ a : addr, h' !! a = h !! a.
Proof.
  intros h'. assert (h' = h) as -> by apply (devices_preserves_heap self h).
  done.
Qed.

(** ** The wrapper: successive enumerations *)

(** What the body of the outer loop yields depends on the thermostats of
    the location only. *)
Lemma outer_body_fst (h : Heap) l :
  fst ((ds <- attr_thermostats l ;;
        for_yield ds (λ device, yield_ (l, device))) h)
  = match thermostats_at h l with
    | Some ds => Return (pair l <$> ds)
    | None => Raise (AttributeError "thermostats")
    end.
Proof.
  destruct (thermostats_at h l) as [ds|] eqn:Hds.
  - by rewrite (outer_body_eq h l ds).
  - erewrite bind_raises; [done|]. by rewrite attr_thermostats_eq, Hds.
Qed.

(** Two loops whose bodies do not change the state and agree, element by
    element, on what they yield, yield the same. *)
Lemma for_yield_congr {S A Y} (xs : list A) (b1 b2 : A → M S (list Y)) s1 s2 :
  (∀ x, preserves id (b1 x)) → (∀ x, preserves id (b2 x)) →
  Forall (λ x, fst (b1 x s1) = fst (b2 x s2)) xs →
  fst (for_yield xs b1 s1) = fst (for_yield xs b2 s2).
Proof.
  intros Hb1 Hb2. induction 1 as [|x xs Hx _ IH]; [done|].
  simpl. unfold bind at 1 3.
  pose proof (Hb1 x s1) as E1. pose proof (Hb2 x s2) as E2.
  destruct (b1 x s1) as [r1 t1], (b2 x s2) as [r2 t2].
  simpl in *. subst t1 t2 r2. destruct r1 as [ys|e]; [|done].
  unfold bind.
  destruct (for_yield xs b1 s1) as [[zs1|e1] u1],
           (for_yield xs b2 s2) as [[zs2|e2] u2]; simpl in *; congruence.
Qed.

(** [devices], by cases on what the two attribute reads find. *)
Lemma devices_unfold self (h : Heap) :
  devices self h
  = match lyric_of h self with
    | None => (Raise (AttributeError "lyric"), h)
    | Some ly =>
        match locations_of h ly with
        | None => (Raise (AttributeError "locations"), h)
        | Some ls =>
            for_yield ls (λ location,
              ds <- attr_thermostats location ;;
              for_yield ds (λ device, yield_ (location, device))) h
        end
    end.
Proof.
  unfold devices, bind at 1. rewrite attr_lyric_eq.
  destruct (lyric_of h self) as [ly|]; [|done]. simpl.
  unfold bind at 1. rewrite attr_locations_eq.
  by destruct (locations_of h ly) as [ls|].
Qed.

Lemma devices_depends_on_collections self h1 h2 :
  same_collections self h1 h2 → fst (devices self h1) = fst (devices self h2).
Proof.
  intros [Hly Hrest]. rewrite !devices_unfold, <- Hly.
  destruct (lyric_of h1 self) as [ly|]; [|done].
  destruct Hrest as [Hls Hds]. rewrite <- Hls.
  destruct (locations_of h1 ly) as [ls|]; [|done].
  apply for_yield_congr.
  - intros l. apply preserves_bind; [eauto with frame|]. intros ds.
    apply preserves_for_yield. intros d. apply preserves_ret.
  - intros l. apply preserves_bind; [eauto with frame|]. intros ds.
    apply preserves_for_yield. intros d. apply preserves_ret.
  - eapply Forall_impl; [exact Hds|]. intros l Hl. simpl in Hl.
    by rewrite !outer_body_fst, Hl.
Qed.

(** C6.  Two successive enumerations of [devices] on the same wrapper:
    when the collections of the vendor client in the heap at the second
    call are those left by the first call, the second enumeration ends as
    the first did, and the pairs it yields are the same multiset (the
    same sequence, indeed). *)
Theorem devices_twice_same_multiset (self : addr) (h1 h2 : Heap) :
  same_collections self (snd (devices self h1)) h2 →
  fst (devices self h2) = fst (devices self h1)
  ∧ ∀ xs ys, fst (devices self h1) = Return xs →
             fst (devices self h2) = Return ys → xs ≡ₚ ys.
Proof.
  pose proof (devices_preserves_heap self h1) as Hframe. simpl in Hframe.
  rewrite Hframe.
  intros Hsame%devices_depends_on_collections. split; [done|].
  intros xs ys H1 H2. rewrite H1, H2 in Hsame. by injection Hsame as ->.
Qed.

(** The witness of C6: between the two calls the vendor SDK renames a
    location and creates an object. *)
Lemma devices_twice_same_multiset_witness :
  fst (devices 1%positive two_sites_later) = fst (devices 1%positive two_sites)
  ∧ ∀ xs ys, fst (devices 1%positive two_sites) = Return xs →
             fst (devices 1%positive two_sites_later) = Return ys → xs ≡ₚ ys.
Proof.
  apply (devices_twice_same_multiset 1%positive two_sites two_sites_later).
  compute_done.
Defined.

(** Nothing is cached: once the vendor client's collections have changed,
    the next enumeration yields the pairs of the new collections. *)
Example devices_not_cached :
  fst ((xs <- devices 1%positive ;;
        modify (λ _, two_sites_shrunk) ;;;
        ys <- devices 1%positive ;;
        ret (xs, ys)) two_sites)
  = Return ([(3, 10); (3, 11); (4, 12); (4, 13); (4, 14)]%positive,
            [(3, 10); (3, 11); (4, 12); (4, 14)]%positive).
Proof. reflexivity. Qed.

(** ** The set-up hooks *)

Section hooks_properties.
Context `{Consts} `{Host}.

(** C5.  When the global configuration has no entry for the integration
    domain, [async_setup] returns [True], registers no OAuth
    implementation, and has set the shared state of the domain to an
    empty mapping. *)
Theorem async_setup_without_domain_config
    (config : gmap string (gmap string string)) (h : HomeAssistant) :
  config !! DOMAIN = None →
  async_setup config h
  = (Return true, set_hass_data (λ d, <[DOMAIN := ∅]> d) h)
  ∧ implementations (snd (async_setup config h)) = implementations h
  ∧ hass_data (snd (async_setup config h)) !! DOMAIN = Some ∅.
Proof.
  intros Hconfig.
  assert (async_setup config h
          = (Return true, set_hass_data (λ d, <[DOMAIN := ∅]> d) h)) as ->.
  { unfold async_setup, bind, modify. simpl. by rewrite decide_True. }
  repeat split. simpl. apply lookup_insert_eq.
Qed.

(** With a domain configuration, the implementation is registered. *)
Lemma async_setup_with_domain_config
    (config : gmap string (gmap string string)) (h : HomeAssistant)
    domain_config id secret :
  config !! DOMAIN = Some domain_config →
  domain_config !! CONF_CLIENT_ID = Some id →
  domain_config !! CONF_CLIENT_SECRET = Some secret →
  fst (async_setup config h) = Return true
  ∧ implementations (snd (async_setup config h))
    = implementations h
      ++ [mkImplementation DOMAIN id secret
            "https://api.honeywell.com/oauth2/authorize"
            "https://api.honeywell.com/oauth2/token" None None].
Proof.
  intros Hconfig Hid Hsecret.
  unfold async_setup, bind, modify, getitem.
  rewrite decide_False by congruence.
  rewrite Hconfig. cbn [expect ret]. by rewrite Hid, Hsecret.
Qed.

(** [async_setup_entry], step by step. *)
Lemma async_setup_entry_unfold (s : State) :
  let e := backfilled (entry s) in
  async_setup_entry s
  = match async_get_config_entry_implementation (hass s) e with
    | Raise x => (Raise x, mkState (heap s) (hass s) e)
    | Return implementation =>
      match entry_data e !! CONF_TOKEN with
      | None => (Raise (KeyError CONF_TOKEN), mkState (heap s) (hass s) e)
      | Some tok =>
        match Lyric_new
                (mkLyricArgs "Home Assistant"
                   (client_id implementation) (client_secret implementation)
                   (Some tok) (Some (config_path CONF_LYRIC_CONFIG_FILE)))
                (heap s) with
        | (Raise x, h1) => (Raise x, mkState h1 (hass s) e)
        | (Return lyric, h1) =>
          match LyricClient_new lyric h1 with
          | (Raise x, h2) => (Raise x, mkState h2 (hass s) e)
          | (Return client, h2) =>
            (Return true,
             mkState h2
               (set_tasks (λ l, (l ++ [(entry_id e, "climate")])
                                ++ [(entry_id e, "sensor")])
                  (set_hass_data (λ d,
                     <[DOMAIN := <[DATA_LYRIC_CLIENT := client]>
                                   (default ∅ (d !! DOMAIN))]> d) (hass s)))
               e)
          end
        end
      end
    end.
Proof.
  intros e. unfold async_setup_entry.
  unfold bind at 1. cbn [gets].
  assert ((if decide (entry_data (entry s) !! "auth_implementation" = None)
           then on_entry (async_update_entry
                  (<["auth_implementation" := VStr DOMAIN]> (entry_data (entry s))))
           else ret tt) s
          = (Return tt, mkState (heap s) (hass s) e)) as Hfill.
  { subst e. unfold backfilled. case_decide; [done|]. by destruct s. }
  rewrite (bind_returns _ _ _ _ _ Hfill).
  unfold bind at 1. cbn [hass entry].
  destruct (async_get_config_entry_implementation (hass s) e) as [impl|x];
    [|done].
  unfold bind at 1. cbn [gets entry].
  unfold bind at 1, getitem.
  destruct (entry_data e !! CONF_TOKEN) as [tok|]; [|done]. cbn [expect ret].
  unfold bind at 1, on_heap at 1. cbn [heap hass entry set_token
    set_token_cache_file client_id client_secret token token_cache_file].
  destruct (Lyric_new _ (heap s)) as [[ly|x] h1]; [|done].
  unfold bind at 1, on_heap at 1. cbn [heap hass entry].
  destruct (LyricClient_new ly h1) as [[client|x] h2]; [|done].
  reflexivity.
Qed.

Lemma entry_id_backfilled (e : ConfigEntry) : entry_id (backfilled e) = entry_id e.
Proof. unfold backfilled. by case_decide. Qed.

(** Whatever its outcome, [async_setup_entry] leaves the entry
    backfilled. *)
Lemma async_setup_entry_entry (s : State) :
  entry (snd (async_setup_entry s)) = backfilled (entry s).
Proof.
  rewrite async_setup_entry_unfold.
  repeat (case_match; simplify_eq/=); done.
Qed.

(** C3.  When the data of the entry has no ["auth_implementation"] marker
    and [async_setup_entry] completes, the data of the entry has the
    marker, equal to [DOMAIN], and every other field is what it was. *)
Theorem async_setup_entry_backfills_marker (s : State) (b : bool) :
  entry_data (entry s) !! "auth_implementation" = None →
  fst (async_setup_entry s) = Return b →
  let data' := entry_data (entry (snd (async_setup_entry s))) in
  data' !! "auth_implementation" = Some (VStr DOMAIN)
  ∧ (∀ key, key ≠ "auth_implementation" →
       data' !! key = entry_data (entry s) !! key)
  ∧ data' = <["auth_implementation" := VStr DOMAIN]> (entry_data (entry s)).
Proof.
  intros Hnone _ data'. subst data'.
  rewrite async_setup_entry_entry. unfold backfilled.
  rewrite decide_True by done. cbn [entry_data]. split_and!.
  - apply lookup_insert_eq.
  - intros key Hkey. by apply lookup_insert_ne.
  - done.
Qed.

(** An entry that has the marker keeps its data. *)
Lemma async_setup_entry_keeps_marker (s : State) :
  is_Some (entry_data (entry s) !! "auth_implementation") →
  entry (snd (async_setup_entry s)) = entry s.
Proof.
  intros [v Hv]. rewrite async_setup_entry_entry. unfold backfilled.
  by rewrite decide_False by congruence.
Qed.

(** Once [async_setup_entry] has returned, the wrapper is in the shared
    state of the domain. *)
Lemma async_setup_entry_stores_wrapper (s : State) (b : bool) :
  fst (async_setup_entry s) = Return b →
  ∃ d client,
    hass_data (hass (snd (async_setup_entry s))) !! DOMAIN = Some d
    ∧ d !! DATA_LYRIC_CLIENT = Some client.
Proof.
  rewrite async_setup_entry_unfold.
  repeat (case_match; simplify_eq/=); try done. intros _.
  eexists _, _. split; [apply lookup_insert_eq|apply lookup_insert_eq].
Qed.

(** The tasks scheduled by [async_setup_entry]. *)
Lemma async_setup_entry_tasks (s : State) :
  tasks (hass (snd (async_setup_entry s)))
  = tasks (hass s)
    ++ match fst (async_setup_entry s) with
       | Return _ => pair (entry_id (entry s)) <$> LYRIC_COMPONENTS
       | Raise _ => []
       end.
Proof.
  rewrite async_setup_entry_unfold.
  repeat (case_match; simplify_eq/=); rewrite ?app_nil_r; try done.
  by rewrite entry_id_backfilled, <- app_assoc.
Qed.

(** ** Unloading *)

Lemma join_outcomes_raised {A} (rs : list (outcome A)) :
  Exists raised rs → ∃ e, Raise e ∈ rs ∧ join_outcomes rs = Raise e.
Proof.
  induction rs as [|r rs IH]; intros Hex; [by apply Exists_nil in Hex|].
  simpl. destruct r as [a|e].
  - apply Exists_cons in Hex as [[]|Hex].
    destruct (IH Hex) as (e & He & ->). exists e. split; [by right | done].
  - exists e. split; [by left | done].
Qed.

Lemma join_outcomes_returned {A} (rs : list (outcome A)) :
  Forall returned rs → ∃ l, join_outcomes rs = Return l.
Proof.
  induction 1 as [|r rs Hr _ [l IH]]; [by exists []|].
  simpl. destruct r as [a|e]; [|done]. rewrite IH. by eexists.
Qed.

Lemma platforms_raised {A B} (f : A → outcome B) (xs : list A) :
  Exists (λ x, raised (f x)) xs →
  ∃ e, Raise e ∈ f <$> xs ∧ join_outcomes (f <$> xs) = Raise e.
Proof. intros Hex. apply join_outcomes_raised. by apply Exists_fmap. Qed.

Lemma platforms_returned {A B} (f : A → outcome B) (xs : list A) :
  Forall (λ x, returned (f x)) xs → ∃ l, join_outcomes (f <$> xs) = Return l.
Proof. intros Hall. apply join_outcomes_returned. by apply Forall_fmap. Qed.

(** The join over the forwarded unloads: every unload is requested, and
    the join ends as the unloads of the platforms do. *)
Lemma gather_forward_entry_unload (components : list string) (s : State) :
  gather (async_forward_entry_unload <$> components) s
  = (join_outcomes (platform_unload (entry s) <$> components),
     mkState (heap s)
       (set_unloads (λ l, l ++ (pair (entry_id (entry s)) <$> components))
          (hass s))
       (entry s)).
Proof.
  revert s. induction components as [|c cs IH]; intros s.
  - destruct s as [hp [] e]. unfold set_unloads. simpl. by rewrite app_nil_r.
  - cbn [fmap list_fmap gather join_outcomes].
    change (gather (list_fmap _ _ async_forward_entry_unload cs))
      with (gather (async_forward_entry_unload <$> cs)).
    assert (async_forward_entry_unload c s
            = (platform_unload (entry s) c,
               mkState (heap s)
                 (set_unloads (λ l, l ++ [(entry_id (entry s), c)]) (hass s))
                 (entry s))) as -> by done.
    rewrite IH. cbn [heap hass entry]. f_equal.
    unfold set_unloads. simpl. by rewrite <- app_assoc.
Qed.

(** [async_unload_entry], step by step. *)
Lemma async_unload_entry_unfold (s : State) :
  let requested :=
    set_unloads (λ l, l ++ (pair (entry_id (entry s)) <$> LYRIC_COMPONENTS))
      (hass s) in
  let removed :=
    set_services (λ r, r ∖ {[ (DOMAIN, SERVICE_HOLD_TIME) ]}) requested in
  async_unload_entry s
  = match join_outcomes (platform_unload (entry s) <$> LYRIC_COMPONENTS) with
    | Raise x => (Raise x, mkState (heap s) requested (entry s))
    | Return _ =>
        match hass_data (hass s) !! DOMAIN with
        | None => (Raise (KeyError DOMAIN), mkState (heap s) removed (entry s))
        | Some _ =>
            (Return true,
             mkState (heap s) (set_hass_data (delete DOMAIN) removed) (entry s))
        end
    end.
Proof.
  intros requested removed. unfold async_unload_entry.
  unfold bind at 1. rewrite gather_forward_entry_unload.
  destruct (join_outcomes _) as [l|x]; [|done].
  unfold bind, on_hass, on_hass_data, delitem, services_async_remove, modify.
  cbn [hass heap entry set_services set_unloads hass_data].
  by destruct (hass_data (hass s) !! DOMAIN).
Qed.
End hooks_properties.

Section forwarding_and_unloading.
Context `{Consts} `{Host}.

(** C8.  The platforms forwarded to are those of [LYRIC_COMPONENTS], the
    two names ["climate"] and ["sensor"]: a completed [async_setup_entry]
    has scheduled the setup of exactly these two for the entry, and
    [async_unload_entry] requests the unloading of exactly these two, so
    that the two sets of names are equal. *)
Theorem setup_and_unload_forward_the_same_platforms (s u : State) (b : bool) :
  fst (async_setup_entry s) = Return b →
  let s' := snd (async_setup_entry s) in
  let u' := snd (async_unload_entry u) in
  LYRIC_COMPONENTS = ["climate"; "sensor"]
  ∧ tasks (hass s')
    = tasks (hass s) ++ [(entry_id (entry s), "climate");
                         (entry_id (entry s), "sensor")]
  ∧ unloads (hass u')
    = unloads (hass u) ++ [(entry_id (entry u), "climate");
                           (entry_id (entry u), "sensor")]
  ∧ forwarded_setups (hass s) (hass s') = ["climate"; "sensor"]
  ∧ forwarded_unloads (hass u) (hass u') = ["climate"; "sensor"]
  ∧ list_to_set (forwarded_setups (hass s) (hass s'))
    =@{gset string} list_to_set (forwarded_unloads (hass u) (hass u'))
  ∧ size (list_to_set (C:=gset string)
            (forwarded_setups (hass s) (hass s'))) = 2.
Proof.
  intros Hret s' u'.
  assert (tasks (hass s')
          = tasks (hass s) ++ [(entry_id (entry s), "climate");
                               (entry_id (entry s), "sensor")]) as Htasks.
  { subst s'. by rewrite async_setup_entry_tasks, Hret. }
  assert (unloads (hass u')
          = unloads (hass u) ++ [(entry_id (entry u), "climate");
                                 (entry_id (entry u), "sensor")]) as Hunloads.
  { subst u'. rewrite async_unload_entry_unfold.
    repeat (case_match; simplify_eq/=); done. }
  assert (forwarded_setups (hass s) (hass s') = ["climate"; "sensor"]) as Hfs.
  { unfold forwarded_setups. by rewrite Htasks, drop_app_length. }
  assert (forwarded_unloads (hass u) (hass u') = ["climate"; "sensor"]) as Hfu.
  { unfold forwarded_unloads. by rewrite Hunloads, drop_app_length. }
  split_and!; try done.
  - by rewrite Hfs, Hfu.
  - rewrite Hfs. compute_done.
Qed.

(** C1, for a failure that is an exception.  When the unloading of one
    of the forwarded platforms raises, [async_unload_entry] raises too,
    with the exception of a platform,
    and neither the shared state nor the registered services have
    changed. *)
Theorem async_unload_entry_fails_when_a_platform_fails (s : State) :
  Exists (λ component, raised (platform_unload (entry s) component))
         LYRIC_COMPONENTS →
  let s' := snd (async_unload_entry s) in
  raised (fst (async_unload_entry s))
  ∧ (∃ component e,
       component ∈ LYRIC_COMPONENTS
       ∧ platform_unload (entry s) component = Raise e
       ∧ fst (async_unload_entry s) = Raise e)
  ∧ hass_data (hass s') = hass_data (hass s)
  ∧ hass_data (hass s') !! DOMAIN = hass_data (hass s) !! DOMAIN
  ∧ services (hass s') = services (hass s).
Proof.
  intros Hex s'. subst s'.
  apply platforms_raised in Hex as (e & He & Hjoin).
  rewrite async_unload_entry_unfold, Hjoin. cbn [fst snd hass].
  split_and!; try done.
  apply list_elem_of_fmap in He as (component & He & Hc).
  by exists component, e.
Qed.

(** C4, with the presence of the key made explicit.  When the unloading
    of both forwarded platforms returns and the shared state has an entry
    for the domain, [async_unload_entry] returns [True], the hold-time
    service is not registered any more, and the entry of the domain is
    gone from the shared state, whose other entries are untouched. *)
Theorem async_unload_entry_succeeds (s : State) :
  Forall (λ component, returned (platform_unload (entry s) component))
         LYRIC_COMPONENTS →
  is_Some (hass_data (hass s) !! DOMAIN) →
  let s' := snd (async_unload_entry s) in
  fst (async_unload_entry s) = Return true
  ∧ ((DOMAIN, SERVICE_HOLD_TIME) ∉ services (hass s'))
  ∧ services (hass s') = services (hass s) ∖ {[ (DOMAIN, SERVICE_HOLD_TIME) ]}
  ∧ hass_data (hass s') !! DOMAIN = None
  ∧ hass_data (hass s') = delete DOMAIN (hass_data (hass s)).
Proof.
  intros Hall [d Hd] s'. subst s'.
  apply platforms_returned in Hall as [l Hjoin].
  rewrite async_unload_entry_unfold, Hjoin, Hd. cbn [fst snd hass].
  split_and!; try done.
  - cbn [set_hass_data set_services services].
    rewrite elem_of_difference, elem_of_singleton. tauto.
  - cbn [set_hass_data hass_data]. apply lookup_delete_eq.
Qed.

(** C9.  When the unloading of both forwarded platforms returns but the
    shared state has no entry for the domain, [async_unload_entry] does
    not return: removing the entry raises [KeyError], after the service
    was removed.  Given that the join succeeds, [async_unload_entry]
    returns exactly when the shared state has the entry of the domain. *)
Theorem async_unload_entry_requires_domain_key (s : State) :
  Forall (λ component, returned (platform_unload (entry s) component))
         LYRIC_COMPONENTS →
  (hass_data (hass s) !! DOMAIN = None →
     fst (async_unload_entry s) = Raise (KeyError DOMAIN)
     ∧ hass_data (hass (snd (async_unload_entry s))) = hass_data (hass s))
  ∧ (returned (fst (async_unload_entry s))
     ↔ is_Some (hass_data (hass s) !! DOMAIN)).
Proof.
  intros Hall.
  apply platforms_returned in Hall as [l Hjoin].
  rewrite async_unload_entry_unfold, Hjoin.
  destruct (hass_data (hass s) !! DOMAIN) as [d|] eqn:Hd; cbn [fst snd hass].
  - split; [done|]. split; [by eauto | done].
  - split; [done|]. split; [done | by intros [? ?]].
Qed.

(** The values that the unloads of the platforms return are not looked
    at: the join only has to end without an exception. *)
Lemma async_unload_entry_ignores_results (s : State) (b1 b2 : bool) :
  platform_unload (entry s) "climate" = Return b1 →
  platform_unload (entry s) "sensor" = Return b2 →
  is_Some (hass_data (hass s) !! DOMAIN) →
  fst (async_unload_entry s) = Return true.
Proof.
  intros H1 H2 [d Hd]. rewrite async_unload_entry_unfold.
  cbn [LYRIC_COMPONENTS fmap list_fmap join_outcomes].
  by rewrite H1, H2, Hd.
Qed.

(** After a completed [async_setup_entry], unloading the entry finds the
    entry of the domain in the shared state. *)
Lemma async_unload_entry_after_setup (s : State) (b : bool) :
  fst (async_setup_entry s) = Return b →
  let s1 := snd (async_setup_entry s) in
  Forall (λ component, returned (platform_unload (entry s1) component))
         LYRIC_COMPONENTS →
  fst (async_unload_entry s1) = Return true.
Proof.
  intros (d & client & Hd & _)%async_setup_entry_stores_wrapper s1 Hall.
  apply platforms_returned in Hall as [l Hjoin].
  subst s1. by rewrite async_unload_entry_unfold, Hjoin, Hd.
Qed.

End forwarding_and_unloading.

(** ** The entity base class *)

Lemma async_update_outcome (cls : LyricEntity.class) (self : LyricEntity.t)
    (r : outcome unit) (self' : LyricEntity.t) :
  LyricEntity.resolve_lyric_update cls self = (r, self') →
  LyricEntity.async_update cls self
  = match r with
    | Return _ => (Return tt, LyricEntity.set_available true self')
    | Raise x => (Raise x, self')
    end.
Proof.
  intros Hhook. unfold LyricEntity.async_update, bind. rewrite Hhook.
  by destruct r.
Qed.

(** C7.  For an entity of a class that does not override [_lyric_update],
    the first [async_update] after [__init__] raises
    [NotImplementedError] and leaves the entity as it was, its
    availability flag [False].  In any class, [async_update] sets the
    flag only when the hook has returned; when the hook raises, the
    exception goes through and the entity is as the hook left it. *)
Theorem async_update_not_overridden
    (cls : LyricEntity.class) (device location : addr)
    (unique_id name icon device_class : string) :
  LyricEntity.lyric_update_override cls = None →
  let self :=
    LyricEntity.__init__ device location unique_id name icon device_class in
  LyricEntity.async_update cls self = (Raise NotImplementedError, self)
  ∧ LyricEntity.available (snd (LyricEntity.async_update cls self)) = false
  ∧ (∀ (cls' : LyricEntity.class) (e e' : LyricEntity.t) (r : outcome unit),
       LyricEntity.resolve_lyric_update cls' e = (r, e') →
       LyricEntity.async_update cls' e
       = match r with
         | Return _ => (Return tt, LyricEntity.set_available true e')
         | Raise x => (Raise x, e')
         end).
Proof.
  intros Hcls self.
  assert (LyricEntity.async_update cls self = (Raise NotImplementedError, self))
    as Hupd.
  { rewrite (async_update_outcome cls self (Raise NotImplementedError) self);
      [done|].
    unfold LyricEntity.resolve_lyric_update. by rewrite Hcls. }
  split_and!; [done | by rewrite Hupd |].
  intros cls' e e' r. apply async_update_outcome.
Qed.

(** An entity of a class whose override returns becomes available. *)
Example async_update_overridden :
  LyricEntity.async_update polling_class
    (LyricEntity.__init__ 10%positive 3%positive "LCC-10_temp" "Hall"
       "mdi:thermometer" "temperature")
  = (Return tt,
     LyricEntity.mk "LCC-10_temp" "Hall" "mdi:thermometer" "temperature"
       true 10%positive 3%positive).
Proof. reflexivity. Qed.

(** ** Instances of the statements on the sample data *)

Lemma async_update_not_overridden_witness :
  LyricEntity.lyric_update_override plain_class = None
  ∧ LyricEntity.async_update plain_class
      (LyricEntity.__init__ 10%positive 3%positive "LCC-10_temp" "Hall"
         "mdi:thermometer" "temperature")
    = (Raise NotImplementedError,
       LyricEntity.__init__ 10%positive 3%positive "LCC-10_temp" "Hall"
         "mdi:thermometer" "temperature").
Proof.
  split; [reflexivity|].
  apply (async_update_not_overridden plain_class 10%positive 3%positive
           "LCC-10_temp" "Hall" "mdi:thermometer" "temperature").
  reflexivity.
Defined.

Lemma async_setup_without_domain_config_witness :
  (∅ : gmap string (gmap string string)) !! "lyric" = None
  ∧ @async_setup sample_consts ∅ empty_hass
    = (Return true, set_hass_data (λ d, <["lyric" := ∅]> d) empty_hass).
Proof.
  split; [reflexivity|].
  apply (@async_setup_without_domain_config sample_consts ∅ empty_hass).
  reflexivity.
Defined.

Lemma async_setup_entry_backfills_marker_witness :
  entry_data (entry fresh_state) !! "auth_implementation" = None
  ∧ fst (@async_setup_entry sample_consts quiet_host fresh_state) = Return true
  ∧ entry_data (entry (snd (@async_setup_entry sample_consts quiet_host
                             fresh_state))) !! "auth_implementation"
    = Some (VStr "lyric").
Proof.
  split; [reflexivity|]. split; [vm_compute; reflexivity|].
  apply (@async_setup_entry_backfills_marker sample_consts quiet_host
           fresh_state true).
  - reflexivity.
  - vm_compute; reflexivity.
Defined.

Lemma setup_and_unload_forward_the_same_platforms_witness :
  fst (@async_setup_entry sample_consts quiet_host fresh_state) = Return true
  ∧ LYRIC_COMPONENTS = ["climate"; "sensor"].
Proof.
  split; [vm_compute; reflexivity|].
  apply (@setup_and_unload_forward_the_same_platforms sample_consts quiet_host
           fresh_state loaded_state true).
  vm_compute; reflexivity.
Defined.

Lemma async_unload_entry_fails_when_a_platform_fails_witness :
  Exists (λ component,
            raised (@platform_unload sensor_fails_host (entry loaded_state)
                      component)) LYRIC_COMPONENTS
  ∧ raised (fst (@async_unload_entry sample_consts sensor_fails_host
                   loaded_state)).
Proof.
  split; [compute_done|].
  apply (@async_unload_entry_fails_when_a_platform_fails sample_consts
           sensor_fails_host loaded_state).
  compute_done.
Defined.

Lemma async_unload_entry_succeeds_witness :
  Forall (λ component,
            returned (@platform_unload quiet_host (entry loaded_state)
                        component)) LYRIC_COMPONENTS
  ∧ is_Some (hass_data (hass loaded_state) !! "lyric")
  ∧ fst (@async_unload_entry sample_consts quiet_host loaded_state)
    = Return true.
Proof.
  split; [compute_done|]. split; [compute_done|].
  apply (@async_unload_entry_succeeds sample_consts quiet_host loaded_state).
  - compute_done.
  - compute_done.
Defined.

(** C1 as it is worded, when the sensor platform reports the failure of
    its unloading by returning [False]: the results of the join are not
    looked at, the hook returns [True] and the entry of the domain is
    removed from the shared state. *)
Lemma async_unload_entry_ignores_reported_failure :
  Exists (λ component,
            failed (@platform_unload sensor_refuses_host (entry loaded_state)
                      component)) LYRIC_COMPONENTS
  ∧ @platform_unload sensor_refuses_host (entry loaded_state) "sensor"
    = Return false
  ∧ fst (@async_unload_entry sample_consts sensor_refuses_host loaded_state)
    = Return true
  ∧ is_Some (hass_data (hass loaded_state) !! "lyric")
  ∧ hass_data (hass (snd (@async_unload_entry sample_consts sensor_refuses_host
                            loaded_state))) !! "lyric" = None.
Proof.
  split; [compute_done|]. split; [reflexivity|].
  split; [vm_compute; reflexivity|]. split; [compute_done|].
  vm_compute; reflexivity.
Qed.

(** C4 as it is worded, at the unloading of the second of two entries:
    both platforms unload, yet removing the entry of the domain, which
    the unloading of the first entry has removed already, raises. *)
Lemma async_unload_entry_second_entry_raises :
  Forall (λ component,
            returned (@platform_unload quiet_host (entry second_entry_left)
                        component)) LYRIC_COMPONENTS
  ∧ fst (@async_unload_entry sample_consts quiet_host second_entry_left)
    = Raise (KeyError "lyric")
  ∧ fst (@async_unload_entry sample_consts quiet_host second_entry_left)
    ≠ Return true.
Proof.
  split; [compute_done|].
  assert (fst (@async_unload_entry sample_consts quiet_host second_entry_left)
          = Raise (KeyError "lyric")) as -> by (vm_compute; reflexivity).
  done.
Qed.

Lemma async_unload_entry_requires_domain_key_witness :
  Forall (λ component,
            returned (@platform_unload quiet_host (entry fresh_state)
                        component)) LYRIC_COMPONENTS
  ∧ (hass_data (hass fresh_state) !! "lyric" = None →
       fst (@async_unload_entry sample_consts quiet_host fresh_state)
       = Raise (KeyError "lyric")
       ∧ hass_data (hass (snd (@async_unload_entry sample_consts quiet_host
                                 fresh_state)))
         = hass_data (hass fresh_state)).
Proof.
  split; [compute_done|].
  apply (@async_unload_entry_requires_domain_key sample_consts quiet_host
           fresh_state).
  compute_done.
Defined.

(** * Further properties *)

(** ** [async_setup] *)

Section async_setup_properties.
Context `{Consts}.

(** X1.  With a domain configuration that has the client id and the
    client secret, [async_setup] returns [True] after registering one
    implementation, behind those registered before: it carries the
    domain, the configured id and secret and the two Honeywell
    endpoints.  Other keys of the domain configuration play no part. *)
Theorem async_setup_registers_implementation
    (config : gmap string (gmap string string)) (h : HomeAssistant)
    (domain_config : gmap string string) (id secret : string) :
  config !! DOMAIN = Some domain_config →
  domain_config !! CONF_CLIENT_ID = Some id →
  domain_config !! CONF_CLIENT_SECRET = Some secret →
  async_setup config h
  = (Return true,
     set_implementations
       (λ l, l ++ [mkImplementation DOMAIN id secret
                     "https://api.honeywell.com/oauth2/authorize"
                     "https://api.honeywell.com/oauth2/token" None None])
       (set_hass_data (λ d, <[DOMAIN := ∅]> d) h)).
Proof.
  intros Hconfig Hid Hsecret.
  unfold async_setup, bind, modify, getitem.
  rewrite decide_False by congruence.
  rewrite Hconfig. cbn [expect ret]. by rewrite Hid, Hsecret.
Qed.

(** X2.  With a domain configuration that lacks the client id or the
    client secret, [async_setup] raises [KeyError] for the first of the
    two that is missing and registers nothing; the shared state of the
    domain has been reset all the same. *)
Theorem async_setup_missing_credentials
    (config : gmap string (gmap string string)) (h : HomeAssistant)
    (domain_config : gmap string string) :
  config !! DOMAIN = Some domain_config →
  domain_config !! CONF_CLIENT_ID = None
  ∨ domain_config !! CONF_CLIENT_SECRET = None →
  fst (async_setup config h)
  = Raise (KeyError (if decide (domain_config !! CONF_CLIENT_ID = None)
                     then CONF_CLIENT_ID else CONF_CLIENT_SECRET))
  ∧ implementations (snd (async_setup config h)) = implementations h
  ∧ hass_data (snd (async_setup config h)) = <[DOMAIN := ∅]> (hass_data h).
Proof.
  intros Hconfig Hmissing.
  unfold async_setup, bind, modify, getitem.
  rewrite decide_False by congruence.
  rewrite Hconfig. cbn [expect ret].
  destruct (domain_config !! CONF_CLIENT_ID) as [id|] eqn:Hid.
  - rewrite decide_False by done.
    destruct Hmissing as [|Hsecret]; [done|]. by rewrite Hsecret.
  - by rewrite decide_True by done.
Qed.


End async_setup_properties.

Lemma async_setup_registers_implementation_witness :
  fst (@async_setup sample_consts configured empty_hass) = Return true
  ∧ implementations (snd (@async_setup sample_consts configured empty_hass))
    = [mkImplementation "lyric" "abc" "xyz"
         "https://api.honeywell.com/oauth2/authorize"
         "https://api.honeywell.com/oauth2/token" None None].
Proof.
  rewrite (@async_setup_registers_implementation sample_consts configured
             empty_hass {[ "client_id" := "abc"; "client_secret" := "xyz" ]}
             "abc" "xyz"); [done | reflexivity..].
Defined.

Lemma async_setup_missing_credentials_witness :
  fst (@async_setup sample_consts half_configured loaded_hass)
  = Raise (KeyError "client_secret")
  ∧ implementations (snd (@async_setup sample_consts half_configured loaded_hass))
    = implementations loaded_hass
  ∧ hass_data (snd (@async_setup sample_consts half_configured loaded_hass))
    = <["lyric" := ∅]> (hass_data loaded_hass).
Proof.
  exact (@async_setup_missing_credentials sample_consts half_configured
           loaded_hass {[ "client_id" := "abc" ]} eq_refl (or_intror eq_refl)).
Defined.

(** ** [LyricClient.__init__] *)

Lemma comprehension_attr_name (ls : list addr) (h : Heap) :
  comprehension attr_name ls h
  = (match mapM (name_of h) ls with
     | Some names => Return names
     | None => Raise (AttributeError "name")
     end, h).
Proof.
  induction ls as [|l ls IH]; [done|].
  cbn [comprehension mapM]. unfold bind at 1, attr_name at 1.
  unfold bind at 1. cbn [gets id].
  destruct (name_of h l) as [n|]; [|done]. cbn [expect ret mbind option_bind].
  unfold bind at 1. rewrite IH.
  by destruct (mapM (name_of h) ls).
Qed.

(** [LyricClient(lyric)], by cases on what the attribute reads find. *)
Lemma LyricClient_new_unfold (ly : addr) (h : Heap) :
  LyricClient_new ly h
  = match locations_of h ly with
    | None => (Raise (AttributeError "locations"), h)
    | Some ls =>
        match mapM (name_of h) ls with
        | None => (Raise (AttributeError "name"), h)
        | Some names =>
            (Return (fresh (dom h)),
             <[fresh (dom h) := OLyricClient (mkLyricClient ly names)]> h)
        end
    end.
Proof.
  unfold LyricClient_new, bind at 1. rewrite attr_locations_eq.
  destruct (locations_of h ly) as [ls|]; [|done]. cbn [expect ret].
  unfold bind at 1. rewrite comprehension_attr_name.
  by destruct (mapM (name_of h) ls).
Qed.

Lemma fresh_addr_unused (h : Heap) : h !! fresh (dom h) = None.
Proof. apply not_elem_of_dom, is_fresh. Qed.

Lemma LyricClient_new_ok
    (ly : addr) (h : Heap) (ls : list addr) (names : list string) :
  locations_of h ly = Some ls →
  Forall2 (λ l n, name_of h l = Some n) ls names →
  let self := fresh (dom h) in
  LyricClient_new ly h
  = (Return self, <[self := OLyricClient (mkLyricClient ly names)]> h)
  ∧ ∀ a o, h !! a = Some o →
      (<[self := OLyricClient (mkLyricClient ly names)]> h) !! a = Some o.
Proof.
  intros Hls Hnames self. rewrite LyricClient_new_unfold, Hls.
  apply mapM_Some in Hnames as ->. split; [done|].
  intros a o Ha. rewrite lookup_insert_ne; [done|].
  intros <-. subst self. by rewrite fresh_addr_unused in Ha.
Qed.

(** X4.  When the vendor client has its list of locations and each of
    them has a name, [LyricClient(lyric)] returns a wrapper allocated at
    an address that was not in use: the wrapper holds the reference to
    the client and the names of the locations, one per location and in
    their order, and every object that existed is unchanged. *)
Theorem LyricClient_new_allocates
    (ly : addr) (h : Heap) (ls : list addr) (names : list string) :
  locations_of h ly = Some ls →
  Forall2 (λ l n, name_of h l = Some n) ls names →
  ∃ self : addr,
    LyricClient_new ly h
    = (Return self, <[self := OLyricClient (mkLyricClient ly names)]> h)
    ∧ h !! self = None
    ∧ length names = length ls
    ∧ ∀ a o, h !! a = Some o →
        (<[self := OLyricClient (mkLyricClient ly names)]> h) !! a = Some o.
Proof.
  intros Hls Hnames. exists (fresh (dom h)).
  destruct (LyricClient_new_ok ly h ls names Hls Hnames) as [Hnew Hkeep].
  split_and!; [done | apply fresh_addr_unused | | done].
  symmetry. by eapply Forall2_length.
Qed.

(** X5.  [LyricClient(lyric)] never changes an object that exists, and
    when it raises (the locations or a name cannot be read) it has
    allocated nothing. *)
Theorem LyricClient_new_keeps_heap (ly : addr) (h : Heap) :
  let h' := snd (LyricClient_new ly h) in
  (∀ a o, h !! a = Some o → h' !! a = Some o)
  ∧ (raised (fst (LyricClient_new ly h)) → h' = h).
Proof.
  intros h'. subst h'. rewrite LyricClient_new_unfold.
  destruct (locations_of h ly) as [ls|]; [|done].
  destruct (mapM (name_of h) ls) as [names|]; [|done].
  cbn [fst snd raised]. split; [|done].
  intros a o Ha. rewrite lookup_insert_ne; [done|].
  intros <-. by rewrite fresh_addr_unused in Ha.
Qed.

(** X6.  A wrapper that was just constructed enumerates the devices of
    its vendor client: in the heap left by the construction, [devices]
    on the new wrapper yields the pair of every location of the client
    with each of its thermostats, and the wrapper has recorded the names
    of these locations. *)
Theorem devices_of_new_wrapper
    (ly : addr) (h : Heap) (client : Lyric) (los : list Location) :
  h !! ly = Some (OLyric client) →
  Forall2 (λ l lo, h !! l = Some (OLocation lo)) (locations client) los →
  ∃ (self : addr) (h' : Heap),
    LyricClient_new ly h = (Return self, h')
    ∧ h' !! self = Some (OLyricClient (mkLyricClient ly (name <$> los)))
    ∧ devices self h'
      = (Return (concat (zip_with (λ l lo, pair l <$> thermostats lo)
                           (locations client) los)), h').
Proof.
  intros Hly Hlos.
  assert (locations_of h ly = Some (locations client)) as Hls.
  { unfold locations_of. by rewrite Hly. }
  assert (Forall2 (λ l n, name_of h l = Some n) (locations client) (name <$> los))
    as Hnames.
  { apply Forall2_fmap_r. eapply Forall2_impl; [exact Hlos|].
    intros l lo Hl. unfold name_of. by rewrite Hl. }
  destruct (LyricClient_new_ok ly h _ _ Hls Hnames) as [Hnew Hkeep].
  eexists _, _. split; [exact Hnew|]. split; [apply lookup_insert_eq|].
  rewrite devices_unfold. unfold lyric_of, locations_of.
  rewrite lookup_insert_eq. cbn [mbind option_bind as_client fmap option_fmap
    option_map lyric].
  rewrite (Hkeep _ _ Hly). cbn [mbind option_bind as_lyric option_map].
  apply outer_loop_eq.
  eapply Forall2_impl; [exact Hlos|]. intros l lo Hl. by apply Hkeep.
Qed.

Lemma LyricClient_new_allocates_witness :
  ∃ self : addr,
    LyricClient_new 2%positive two_sites
    = (Return self,
       <[self := OLyricClient (mkLyricClient 2%positive ["Home"; "Cabin"])]>
         two_sites)
    ∧ two_sites !! self = None
    ∧ length ["Home"; "Cabin"] = length [3; 4]%positive
    ∧ ∀ a o, two_sites !! a = Some o →
        (<[self := OLyricClient (mkLyricClient 2%positive ["Home"; "Cabin"])]>
           two_sites) !! a = Some o.
Proof.
  apply (LyricClient_new_allocates 2%positive two_sites [3; 4]%positive
           ["Home"; "Cabin"]).
  - reflexivity.
  - compute_done.
Defined.

Lemma devices_of_new_wrapper_witness :
  ∃ (self : addr) (h' : Heap),
    LyricClient_new 2%positive two_sites = (Return self, h')
    ∧ h' !! self
      = Some (OLyricClient (mkLyricClient 2%positive ["Home"; "Cabin"]))
    ∧ devices self h'
      = (Return [(3, 10); (3, 11); (4, 12); (4, 13); (4, 14)]%positive, h').
Proof.
  apply (devices_of_new_wrapper 2%positive two_sites (mkLyric [3; 4]%positive)
           [mkLocation "Home" [10; 11]%positive;
            mkLocation "Cabin" [12; 13; 14]%positive]).
  - reflexivity.
  - compute_done.
Defined.

(** ** [LyricClient.devices]: counting, duplicates *)

Lemma pairs_length (ls : list addr) (los : list Location) :
  length ls = length los →
  length (concat (zip_with (λ l lo, pair l <$> thermostats lo) ls los))
  = sum_list (length ∘ thermostats <$> los).
Proof.
  revert los. induction ls as [|l ls IH]; intros [|lo los] Hlen;
    try discriminate; [done|].
  cbn [zip_with concat fmap list_fmap sum_list sum_list_with].
  rewrite length_app, length_fmap. simpl. f_equal. apply IH.
  by injection Hlen.
Qed.

(** X7.  [devices] yields as many pairs as there are thermostats at the
    locations of the vendor client, and the locations of the pairs come
    in the order of the client's list; a location without a thermostat
    contributes nothing. *)
Theorem devices_count
    (h : Heap) (self : addr) (c : LyricClient) (ly : Lyric) (los : list Location) :
  h !! self = Some (OLyricClient c) →
  h !! lyric c = Some (OLyric ly) →
  Forall2 (λ l lo, h !! l = Some (OLocation lo)) (locations ly) los →
  ∃ pairs,
    devices self h = (Return pairs, h)
    ∧ length pairs = sum_list (length ∘ thermostats <$> los)
    ∧ fst <$> pairs
      = concat (zip_with (λ l lo, replicate (length (thermostats lo)) l)
                  (locations ly) los).
Proof.
  intros Hself Hly Hlos. eexists. split; [|split].
  - rewrite devices_unfold. unfold lyric_of, locations_of.
    rewrite Hself. cbn. rewrite Hly. cbn. by apply outer_loop_eq.
  - apply pairs_length. by eapply Forall2_length.
  - clear Hly. induction Hlos as [|l lo ls los' _ _ IH]; [done|].
    cbn [zip_with concat]. rewrite fmap_app, IH. f_equal.
    rewrite <- list_fmap_compose. clear.
    induction (thermostats lo) as [|d ds IHd]; [done|].
    cbn. by rewrite IHd.
Qed.

Lemma pairs_NoDup (h : Heap) (ls : list addr) (los : list Location) :
  Forall2 (λ l lo, h !! l = Some (OLocation lo)) ls los →
  NoDup ls → Forall (λ lo, NoDup (thermostats lo)) los →
  NoDup (concat (zip_with (λ l lo, pair l <$> thermostats lo) ls los)).
Proof.
  induction 1 as [|l lo ls los Hl Hlos IH]; intros Hnd Hall;
    cbn [zip_with concat]; [constructor|].
  apply NoDup_cons in Hnd as [Hnotin Hnd].
  apply Forall_cons in Hall as [Hlo Hall].
  apply NoDup_app. split_and!.
  - apply (NoDup_fmap_2 _). exact Hlo.
  - intros [l' d] (d' & [= -> ->] & _)%list_elem_of_fmap Hin.
    apply (elem_of_pairs h ls los) in Hin as (lo' & Hin & _); done.
  - by apply IH.
Qed.

(** X8.  When the locations of the vendor client are distinct and no
    location lists a thermostat twice, [devices] yields no pair twice. *)
Theorem devices_no_duplicates
    (h : Heap) (self : addr) (c : LyricClient) (ly : Lyric) (los : list Location) :
  h !! self = Some (OLyricClient c) →
  h !! lyric c = Some (OLyric ly) →
  Forall2 (λ l lo, h !! l = Some (OLocation lo)) (locations ly) los →
  NoDup (locations ly) →
  Forall (λ lo, NoDup (thermostats lo)) los →
  ∃ pairs, devices self h = (Return pairs, h) ∧ NoDup pairs.
Proof.
  intros Hself Hly Hlos Hnd Hall. eexists. split.
  - rewrite devices_unfold. unfold lyric_of, locations_of.
    rewrite Hself. cbn. rewrite Hly. cbn. by apply outer_loop_eq.
  - by eapply pairs_NoDup.
Qed.

Lemma devices_count_witness :
  ∃ pairs,
    devices 1%positive two_sites = (Return pairs, two_sites)
    ∧ length pairs = 5
    ∧ fst <$> pairs = [3; 3; 4; 4; 4]%positive.
Proof.
  apply (devices_count two_sites 1%positive
           (mkLyricClient 2%positive ["Home"; "Cabin"])
           (mkLyric [3; 4]%positive)
           [mkLocation "Home" [10; 11]%positive;
            mkLocation "Cabin" [12; 13; 14]%positive]).
  - reflexivity.
  - reflexivity.
  - compute_done.
Defined.

Lemma devices_no_duplicates_witness :
  ∃ pairs, devices 1%positive two_sites = (Return pairs, two_sites) ∧ NoDup pairs.
Proof.
  apply (devices_no_duplicates two_sites 1%positive
           (mkLyricClient 2%positive ["Home"; "Cabin"])
           (mkLyric [3; 4]%positive)
           [mkLocation "Home" [10; 11]%positive;
            mkLocation "Cabin" [12; 13; 14]%positive]).
  - reflexivity.
  - reflexivity.
  - compute_done.
  - compute_done.
  - compute_done.
Defined.

(** ** The generator of [devices] *)

(** What the enumeration of the locations [l :: ls] yields, from the
    thermostats of [l] and the enumeration of [ls]. *)
Lemma outer_loop_cons_fst (h : Heap) (l : addr) (ls : list addr) :
  fst (for_yield (l :: ls) (λ location,
         ds <- attr_thermostats location ;;
         for_yield ds (λ device, yield_ (location, device))) h)
  = match thermostats_at h l with
    | None => Raise (AttributeError "thermostats")
    | Some ds =>
        match fst (for_yield ls (λ location,
                     ds <- attr_thermostats location ;;
                     for_yield ds (λ device, yield_ (location, device))) h) with
        | Return ys => Return ((pair l <$> ds) ++ ys)
        | Raise e => Raise e
        end
    end.
Proof.
  cbn [for_yield].
  destruct (thermostats_at h l) as [ds|] eqn:Hds.
  - rewrite (bind_returns _ _ _ _ _ (outer_body_eq h l ds Hds)).
    unfold bind. by destruct (for_yield ls _ h) as [[ys|e] h2].
  - erewrite bind_raises; [done|].
    erewrite bind_raises; [done|]. by rewrite attr_thermostats_eq, Hds.
Qed.

(** A suspended generator, run to the end with enough calls of [next],
    gives the thermostats left at its location and then what the
    enumeration of the locations left gives. *)
Ltac destruct_loop :=
  match goal with
  | |- context [fst (for_yield ?ls ?body ?h)] =>
      destruct (for_yield ls body h) as [[?|?] ?]
  end.

Lemma exhaust_suspended (h : Heap) (ls : list addr) :
  ∀ (l : addr) (ds : list addr) (n : nat),
    length ds + thermostat_count h ls < n →
    exhaust n h (Suspended l ds ls)
    = Some match fst (for_yield ls (λ location,
                        ds <- attr_thermostats location ;;
                        for_yield ds (λ device, yield_ (location, device))) h) with
           | Return ys => Return ((pair l <$> ds) ++ ys)
           | Raise e => Raise e
           end.
Proof.
  induction ls as [|l1 ls1 IH]; intros l ds; induction ds as [|d ds IHds];
    intros [|n] Hn; try (simpl in Hn; lia).
  - done.
  - cbn [exhaust gen_next]. rewrite IHds by (simpl in *; lia).
    by destruct_loop.
  - cbn [exhaust gen_next resume_outer]. rewrite outer_loop_cons_fst.
    unfold thermostat_count in Hn. cbn [fmap list_fmap sum_list sum_list_with] in Hn.
    fold (thermostat_count h ls1) in Hn.
    destruct (thermostats_at h l1) as [[|d1 ds1]|]; cbn [default length] in Hn.
    + transitivity (exhaust (S n) h (Suspended l [] ls1)); [done|].
      rewrite IH by (simpl; lia). by destruct_loop.
    + rewrite IH by (simpl in *; lia). by destruct_loop.
    + done.
  - cbn [exhaust gen_next]. rewrite IHds by (simpl in *; lia).
    by destruct_loop.
Qed.

(** X9.  Run to the end in a heap that stays as it is, the generator of
    [devices] gives what the enumeration [devices] gives, values and
    exception alike; one call of [next] more than there are thermostats
    is enough. *)
Theorem exhaust_generator_is_devices (self : addr) (h : Heap) :
  ∀ n : nat,
    thermostat_count h (default [] (lyric_of h self ≫= locations_of h)) < n →
    exhaust n h (Created self) = Some (fst (devices self h)).
Proof.
  intros [|n] Hn; [lia|].
  rewrite devices_unfold. cbn [exhaust gen_next].
  destruct (lyric_of h self) as [ly|]; [|done]. cbn [mbind option_bind] in Hn.
  destruct (locations_of h ly) as [ls|]; [|done]. cbn [from_option id] in Hn.
  transitivity (exhaust (S n) h (Suspended self [] ls)); [done|].
  rewrite exhaust_suspended by (cbn [length]; lia). by destruct_loop.
Qed.

Lemma exhaust_generator_is_devices_witness :
  exhaust 6 two_sites (Created 1%positive)
  = Some (fst (devices 1%positive two_sites)).
Proof.
  apply (exhaust_generator_is_devices 1%positive two_sites 6).
  vm_compute. lia.
Defined.

(** The first values of a suspended generator, when the thermostats left
    and the locations [ls1] that come next have that many. *)
Lemma take_from_suspended (h : Heap) (ls1 ls2 : list addr) (los1 : list Location) :
  Forall2 (λ l lo, h !! l = Some (OLocation lo)) ls1 los1 →
  ∀ (l : addr) (ds : list addr) (n : nat),
    n ≤ length ds
        + length (concat (zip_with (λ l lo, pair l <$> thermostats lo) ls1 los1)) →
    fst (take_from n h (Suspended l ds (ls1 ++ ls2)))
    = take n ((pair l <$> ds)
              ++ concat (zip_with (λ l lo, pair l <$> thermostats lo) ls1 los1)).
Proof.
  induction 1 as [|l1 lo1 ls1 los1 Hl1 _ IH]; intros l ds;
    induction ds as [|d ds IHds]; intros [|n] Hn; try done;
    try (simpl in Hn; lia).
  - cbn [take_from gen_next].
    specialize (IHds n). destruct (take_from n h _) as [ps g].
    cbn [fst fmap list_fmap app take]. f_equal. apply IHds. simpl in *; lia.
  - cbn [take_from gen_next app resume_outer zip_with concat].
    rewrite (thermostats_at_location h l1 lo1 Hl1).
    cbn [zip_with concat] in Hn. rewrite length_app, length_fmap in Hn.
    destruct (thermostats lo1) as [|d1 ds1].
    + transitivity (fst (take_from (S n) h (Suspended l [] (ls1 ++ ls2))));
        [done|].
      rewrite IH by (simpl in *; lia). done.
    + specialize (IH l1 ds1 n). destruct (take_from n h _) as [ps g].
      cbn [fst fmap list_fmap app take]. f_equal. apply IH. simpl in *; lia.
  - cbn [take_from gen_next].
    specialize (IHds n). destruct (take_from n h _) as [ps g].
    cbn [fst fmap list_fmap app take]. f_equal. apply IHds. simpl in *; lia.
Qed.

(** X10.  The generator of [devices] reads a location only when it gets
    to it: as long as the pairs asked for are among those of the leading
    locations [ls1], they are delivered whatever the locations [ls2]
    behind them are, even one that cannot be read and makes the
    enumeration to the end raise. *)
Theorem generator_is_lazy
    (h : Heap) (self : addr) (c : LyricClient) (ly : Lyric)
    (ls1 ls2 : list addr) (los1 : list Location) (n : nat) :
  h !! self = Some (OLyricClient c) →
  h !! lyric c = Some (OLyric ly) →
  locations ly = ls1 ++ ls2 →
  Forall2 (λ l lo, h !! l = Some (OLocation lo)) ls1 los1 →
  n ≤ length (concat (zip_with (λ l lo, pair l <$> thermostats lo) ls1 los1)) →
  fst (take_from n h (Created self))
  = take n (concat (zip_with (λ l lo, pair l <$> thermostats lo) ls1 los1)).
Proof.
  intros Hself Hly Hlocs Hlos Hn. destruct n as [|n]; [done|].
  pose proof (take_from_suspended h ls1 ls2 los1 Hlos self [] (S n) Hn) as Htake.
  cbn [take_from gen_next] in *.
  unfold lyric_of, locations_of. rewrite Hself. cbn. rewrite Hly. cbn.
  by rewrite Hlocs.
Qed.

Lemma generator_is_lazy_witness :
  fst (take_from 2 second_site_lost (Created 1%positive))
  = [(3, 10); (3, 11)]%positive
  ∧ raised (fst (devices 1%positive second_site_lost)).
Proof.
  split; [|compute_done].
  apply (generator_is_lazy second_site_lost 1%positive
           (mkLyricClient 2%positive ["Home"; "Cabin"])
           (mkLyric [3; 4]%positive) [3%positive] [4%positive]
           [mkLocation "Home" [10; 11]%positive] 2).
  - reflexivity.
  - reflexivity.
  - reflexivity.
  - compute_done.
  - vm_compute. lia.
Defined.

(** ** [async_setup_entry] *)

Section async_setup_entry_properties.
Context `{Consts} `{Host}.

(** X11.  A call of [async_setup_entry] that raises has stored no
    wrapper and has scheduled no platform setup: the shared state, the
    services, the scheduled tasks and the requested unloads are what
    they were.  The entry is left backfilled, and the heap may hold a
    vendor client constructed before the failure. *)
Theorem async_setup_entry_failure_stores_nothing (s : State) :
  raised (fst (async_setup_entry s)) →
  let s' := snd (async_setup_entry s) in
  hass_data (hass s') = hass_data (hass s)
  ∧ tasks (hass s') = tasks (hass s)
  ∧ services (hass s') = services (hass s)
  ∧ unloads (hass s') = unloads (hass s)
  ∧ entry s' = backfilled (entry s).
Proof.
  rewrite async_setup_entry_unfold.
  repeat (case_match; simplify_eq/=); done.
Qed.

(** X12.  When the OAuth implementation of the entry cannot be resolved,
    [async_setup_entry] raises the exception of the host, before the
    token is looked up and before the vendor client is constructed: the
    heap and the [hass] object are unchanged.  The host is asked about
    the entry as backfilled. *)
Theorem async_setup_entry_unresolved_implementation (s : State) (x : exn) :
  async_get_config_entry_implementation (hass s) (backfilled (entry s))
  = Raise x →
  async_setup_entry s
  = (Raise x, mkState (heap s) (hass s) (backfilled (entry s))).
Proof. intros Himpl. by rewrite async_setup_entry_unfold, Himpl. Qed.

(** X13.  When the implementation is resolved but the data of the entry
    has no token, [async_setup_entry] raises [KeyError] for the token
    key without constructing a vendor client: the heap and the [hass]
    object are unchanged. *)
Theorem async_setup_entry_missing_token (s : State) :
  CONF_TOKEN ≠ "auth_implementation" →
  entry_data (entry s) !! CONF_TOKEN = None →
  returned (async_get_config_entry_implementation (hass s)
              (backfilled (entry s))) →
  async_setup_entry s
  = (Raise (KeyError CONF_TOKEN),
     mkState (heap s) (hass s) (backfilled (entry s))).
Proof.
  intros Hne Htok Himpl. rewrite async_setup_entry_unfold.
  destruct (async_get_config_entry_implementation _ _) as [impl|]; [|done].
  assert (entry_data (backfilled (entry s)) !! CONF_TOKEN = None) as ->; [|done].
  unfold backfilled. case_decide; [|done].
  cbn [entry_data]. by rewrite lookup_insert_ne.
Qed.

(** X14.  A completed [async_setup_entry] returns [True] and stores the
    wrapper under its key in the mapping of the domain, replacing a
    wrapper stored before.  The other keys of that mapping, the state of
    the other domains, the services and the requested unloads are what
    they were. *)
Theorem async_setup_entry_stores_only_the_wrapper (s : State) (b : bool) :
  fst (async_setup_entry s) = Return b →
  let h' := hass (snd (async_setup_entry s)) in
  b = true
  ∧ (∃ client,
       hass_data h'
       = <[DOMAIN := <[DATA_LYRIC_CLIENT := client]>
                       (default ∅ (hass_data (hass s) !! DOMAIN))]>
           (hass_data (hass s)))
  ∧ (∀ domain, domain ≠ DOMAIN →
       hass_data h' !! domain = hass_data (hass s) !! domain)
  ∧ (∀ key, key ≠ DATA_LYRIC_CLIENT →
       (hass_data h' !! DOMAIN) ≫= (.!! key)
       = (hass_data (hass s) !! DOMAIN) ≫= (.!! key))
  ∧ services h' = services (hass s)
  ∧ unloads h' = unloads (hass s).
Proof.
  rewrite async_setup_entry_unfold.
  repeat (case_match; simplify_eq/=); try done. intros [= <-].
  split_and!; try done.
  - by eexists.
  - intros domain Hne. by apply lookup_insert_ne.
  - intros key Hne. rewrite lookup_insert_eq. cbn [mbind option_bind].
    rewrite lookup_insert_ne by done.
    by destruct (hass_data (hass s) !! DOMAIN).
Qed.

(** X15.  After a completed [async_setup_entry] the wrapper found in the
    shared state is a [LyricClient] object of the heap, its vendor
    client has a readable list of locations, and the names the wrapper
    has recorded are the names of these locations, in order. *)
Theorem async_setup_entry_wrapper_is_live (s : State) (b : bool) :
  fst (async_setup_entry s) = Return b →
  let s' := snd (async_setup_entry s) in
  ∃ (d : gmap string addr) (client : addr) (c : LyricClient) (ls : list addr),
    hass_data (hass s') !! DOMAIN = Some d
    ∧ d !! DATA_LYRIC_CLIENT = Some client
    ∧ heap s' !! client = Some (OLyricClient c)
    ∧ locations_of (heap s') (lyric c) = Some ls
    ∧ Forall2 (λ l n, name_of (heap s') l = Some n) ls (_location c).
Proof.
  rewrite async_setup_entry_unfold.
  destruct (async_get_config_entry_implementation _ _) as [impl|]; [|done].
  destruct (entry_data _ !! CONF_TOKEN) as [tok|]; [|done].
  destruct (Lyric_new _ (heap s)) as [[ly|] h1]; [|done].
  rewrite LyricClient_new_unfold.
  destruct (locations_of h1 ly) as [ls|] eqn:Hls; [|done].
  destruct (mapM (name_of h1) ls) as [names|] eqn:Hnames; [|done].
  intros _. cbn [fst snd hass heap set_tasks set_hass_data hass_data].
  assert (∀ a o, h1 !! a = Some o →
            (<[fresh (dom h1) := OLyricClient (mkLyricClient ly names)]> h1) !! a
            = Some o) as Hkeep.
  { intros a o Ha. rewrite lookup_insert_ne; [done|].
    intros <-. by rewrite fresh_addr_unused in Ha. }
  eexists _, _, _, ls. split_and!.
  - apply lookup_insert_eq.
  - apply lookup_insert_eq.
  - apply lookup_insert_eq.
  - cbn [lyric]. unfold locations_of in *.
    destruct (h1 !! ly) as [o|] eqn:Hly; [|done].
    by rewrite (Hkeep _ _ Hly).
  - cbn [_location]. apply mapM_Some in Hnames.
    eapply Forall2_impl; [exact Hnames|]. intros l n Hn. unfold name_of in *.
    destruct (h1 !! l) as [o|] eqn:Hl; [|done].
    by rewrite (Hkeep _ _ Hl).
Qed.

(** X16.  [async_setup_entry] never overwrites a marker: an entry that
    has one, whatever its value, keeps its data, whether the call
    returns or raises. *)
Theorem async_setup_entry_keeps_existing_marker (s : State) :
  is_Some (entry_data (entry s) !! "auth_implementation") →
  entry (snd (async_setup_entry s)) = entry s.
Proof.
  intros [v Hv]. rewrite async_setup_entry_entry. unfold backfilled.
  by rewrite decide_False by congruence.
Qed.

(** X17.  The backfill happens once: a second call of
    [async_setup_entry], on the state a first call has left, finds
    nothing to change in the entry, whatever the outcomes of the two
    calls. *)
Theorem async_setup_entry_backfill_is_idempotent (s : State) :
  let s1 := snd (async_setup_entry s) in
  entry (snd (async_setup_entry s1)) = entry s1.
Proof.
  intros s1. subst s1. rewrite !async_setup_entry_entry.
  unfold backfilled at 1. case_decide as Hnone; [|done].
  exfalso. revert Hnone. unfold backfilled. case_decide as Hd.
  - cbn [entry_data]. by rewrite lookup_insert_eq.
  - done.
Qed.

End async_setup_entry_properties.

Lemma async_setup_entry_failure_stores_nothing_witness :
  fst (@async_setup_entry sample_consts sites_host fresh_state)
  = Raise (AttributeError "name")
  ∧ hass_data (hass (snd (@async_setup_entry sample_consts sites_host
                            fresh_state)))
    = hass_data (hass fresh_state)
  ∧ tasks (hass (snd (@async_setup_entry sample_consts sites_host
                        fresh_state)))
    = tasks (hass fresh_state)
  ∧ heap (snd (@async_setup_entry sample_consts sites_host fresh_state))
      !! 1%positive
    = Some (OLyric (mkLyric [3; 4]%positive)).
Proof.
  split; [vm_compute; reflexivity|].
  destruct (@async_setup_entry_failure_stores_nothing sample_consts sites_host
              fresh_state) as (Hdata & Htasks & _).
  - compute_done.
  - split; [exact Hdata|]. split; [exact Htasks|]. vm_compute; reflexivity.
Defined.

Lemma async_setup_entry_unresolved_implementation_witness :
  @async_setup_entry sample_consts unresolved_host tokenless_state
  = (Raise (HostError "Implementation not available"),
     mkState (heap tokenless_state) (hass tokenless_state)
       (@backfilled sample_consts (entry tokenless_state))).
Proof.
  apply (@async_setup_entry_unresolved_implementation sample_consts
           unresolved_host tokenless_state).
  reflexivity.
Defined.

Lemma async_setup_entry_missing_token_witness :
  @async_setup_entry sample_consts quiet_host tokenless_state
  = (Raise (KeyError "token"),
     mkState (heap tokenless_state) (hass tokenless_state)
       (@backfilled sample_consts (entry tokenless_state))).
Proof.
  apply (@async_setup_entry_missing_token sample_consts quiet_host
           tokenless_state).
  - discriminate.
  - reflexivity.
  - compute_done.
Defined.

Lemma async_setup_entry_stores_only_the_wrapper_witness :
  fst (@async_setup_entry sample_consts sites_host busy_state) = Return true
  ∧ hass_data (hass (snd (@async_setup_entry sample_consts sites_host
                            busy_state))) !! "hue"
    = Some {[ "bridge" := 7%positive ]}.
Proof.
  split; [vm_compute; reflexivity|].
  destruct (@async_setup_entry_stores_only_the_wrapper sample_consts sites_host
              busy_state true) as (_ & _ & Hother & _).
  - vm_compute; reflexivity.
  - rewrite (Hother "hue") by discriminate. reflexivity.
Defined.

Lemma async_setup_entry_wrapper_is_live_witness :
  ∃ (d : gmap string addr) (client : addr) (c : LyricClient) (ls : list addr),
    hass_data (hass (snd (@async_setup_entry sample_consts sites_host
                            busy_state))) !! "lyric" = Some d
    ∧ d !! "lyric_client" = Some client
    ∧ heap (snd (@async_setup_entry sample_consts sites_host busy_state))
        !! client = Some (OLyricClient c)
    ∧ locations_of (heap (snd (@async_setup_entry sample_consts sites_host
                                 busy_state))) (lyric c) = Some ls
    ∧ Forall2 (λ l n,
         name_of (heap (snd (@async_setup_entry sample_consts sites_host
                               busy_state))) l = Some n) ls (_location c).
Proof.
  apply (@async_setup_entry_wrapper_is_live sample_consts sites_host
           busy_state true).
  vm_compute; reflexivity.
Defined.

Lemma async_setup_entry_keeps_existing_marker_witness :
  entry (snd (@async_setup_entry sample_consts sites_host busy_state))
  = marked_entry.
Proof.
  apply (@async_setup_entry_keeps_existing_marker sample_consts sites_host
           busy_state).
  compute_done.
Defined.

(** ** [async_unload_entry] *)

Section async_unload_entry_properties.
Context `{Consts} `{Host}.

(** X18.  Whatever its outcome, [async_unload_entry] touches neither the
    heap nor the entry, neither the scheduled tasks nor the registered
    implementations, neither the shared state of another domain nor a
    service other than the hold-time service of the domain; it registers
    no service. *)
Theorem async_unload_entry_touches_nothing_else (s : State) :
  let s' := snd (async_unload_entry s) in
  heap s' = heap s
  ∧ entry s' = entry s
  ∧ tasks (hass s') = tasks (hass s)
  ∧ implementations (hass s') = implementations (hass s)
  ∧ (∀ domain, domain ≠ DOMAIN →
       hass_data (hass s') !! domain = hass_data (hass s) !! domain)
  ∧ (∀ service, service ≠ (DOMAIN, SERVICE_HOLD_TIME) →
       service ∈ services (hass s') ↔ service ∈ services (hass s))
  ∧ services (hass s') ⊆ services (hass s).
Proof.
  intros s'. subst s'. rewrite async_unload_entry_unfold.
  destruct (join_outcomes _) as [l|x]; [|done].
  destruct (hass_data (hass s) !! DOMAIN) as [d|] eqn:Hd;
    cbn [snd heap entry hass tasks implementations hass_data services
         set_hass_data set_services set_unloads];
    split_and!; try done.
  - intros domain Hne. by apply lookup_delete_ne.
  - intros service Hne. rewrite elem_of_difference, elem_of_singleton. tauto.
  - apply subseteq_difference_l. done.
  - intros service Hne. rewrite elem_of_difference, elem_of_singleton. tauto.
  - apply subseteq_difference_l. done.
Qed.

(** X19.  When both platforms unload but the shared state has no entry
    for the domain, the [KeyError] comes after the removal of the
    service: the call fails and the hold-time service is gone. *)
Theorem async_unload_entry_removes_service_before_failing (s : State) :
  Forall (λ component, returned (platform_unload (entry s) component))
         LYRIC_COMPONENTS →
  hass_data (hass s) !! DOMAIN = None →
  let s' := snd (async_unload_entry s) in
  fst (async_unload_entry s) = Raise (KeyError DOMAIN)
  ∧ services (hass s') = services (hass s) ∖ {[ (DOMAIN, SERVICE_HOLD_TIME) ]}
  ∧ ((DOMAIN, SERVICE_HOLD_TIME) ∉ services (hass s')).
Proof.
  intros Hall Hd s'. subst s'.
  apply platforms_returned in Hall as [l Hjoin].
  rewrite async_unload_entry_unfold, Hjoin, Hd.
  cbn [fst snd hass services set_services set_unloads].
  split_and!; try done.
  rewrite elem_of_difference, elem_of_singleton. tauto.
Qed.

(** X20.  Setting an entry up and unloading it, with both platforms
    unloading: the unloading returns [True], the shared state is the one
    from before the setup without the entry of the domain, and the
    heap keeps the vendor client and the wrapper that the setup
    created. *)
Theorem async_unload_entry_undoes_setup (s : State) (b : bool) :
  fst (async_setup_entry s) = Return b →
  let s1 := snd (async_setup_entry s) in
  Forall (λ component, returned (platform_unload (entry s1) component))
         LYRIC_COMPONENTS →
  let s2 := snd (async_unload_entry s1) in
  fst (async_unload_entry s1) = Return true
  ∧ hass_data (hass s2) = delete DOMAIN (hass_data (hass s))
  ∧ heap s2 = heap s1
  ∧ entry s2 = backfilled (entry s).
Proof.
  intros Hret s1 Hall s2.
  apply platforms_returned in Hall as [l Hjoin].
  pose proof (async_setup_entry_entry s) as Hentry.
  assert (∃ client,
            hass_data (hass s1)
            = <[DOMAIN := <[DATA_LYRIC_CLIENT := client]>
                            (default ∅ (hass_data (hass s) !! DOMAIN))]>
                (hass_data (hass s))) as [client Hdata].
  { subst s1. revert Hret. rewrite async_setup_entry_unfold.
    repeat (case_match; simplify_eq/=); try done. by eexists. }
  subst s2. rewrite async_unload_entry_unfold, Hjoin, Hdata, lookup_insert_eq.
  cbn [fst snd hass heap entry hass_data set_hass_data set_services set_unloads].
  split_and!; try done.
  rewrite Hdata. apply delete_insert_eq.
Qed.

(** X21.  Unloading is not repeatable: once [async_unload_entry] has
    returned, a further call, for the same or for another entry, whose
    platforms unload, raises [KeyError] for the domain. *)
Theorem async_unload_entry_twice_raises (s : State) (b : bool) (e : ConfigEntry) :
  fst (async_unload_entry s) = Return b →
  Forall (λ component, returned (platform_unload e component))
         LYRIC_COMPONENTS →
  fst (async_unload_entry (with_entry e (snd (async_unload_entry s))))
  = Raise (KeyError DOMAIN).
Proof.
  intros Hret Hall. apply platforms_returned in Hall as [l Hjoin].
  assert (hass_data (hass (snd (async_unload_entry s))) !! DOMAIN = None)
    as Hgone.
  { revert Hret. rewrite async_unload_entry_unfold.
    repeat (case_match; simplify_eq/=); try done. intros _.
    apply lookup_delete_eq. }
  rewrite (async_unload_entry_unfold (with_entry e _)).
  cbn [with_entry entry hass]. by rewrite Hjoin, Hgone.
Qed.

End async_unload_entry_properties.

Lemma async_unload_entry_removes_service_before_failing_witness :
  fst (@async_unload_entry sample_consts quiet_host orphan_service_state)
  = Raise (KeyError "lyric")
  ∧ services (hass (snd (@async_unload_entry sample_consts quiet_host
                           orphan_service_state)))
    = services (hass orphan_service_state) ∖ {[ ("lyric", "set_hold_time") ]}
  ∧ (("lyric", "set_hold_time")
     ∉ services (hass (snd (@async_unload_entry sample_consts quiet_host
                              orphan_service_state)))).
Proof.
  apply (@async_unload_entry_removes_service_before_failing sample_consts
           quiet_host orphan_service_state).
  - compute_done.
  - reflexivity.
Defined.

Lemma async_unload_entry_undoes_setup_witness :
  fst (@async_setup_entry sample_consts sites_host busy_state) = Return true
  ∧ hass_data (hass (snd (@async_unload_entry sample_consts sites_host
                     (snd (@async_setup_entry sample_consts sites_host
                             busy_state)))))
    = delete "lyric" (hass_data busy_hass).
Proof.
  split; [vm_compute; reflexivity|].
  apply (@async_unload_entry_undoes_setup sample_consts sites_host
           busy_state true).
  - vm_compute; reflexivity.
  - compute_done.
Defined.

Lemma async_unload_entry_twice_raises_witness :
  fst (@async_unload_entry sample_consts quiet_host
         (with_entry second_entry
            (snd (@async_unload_entry sample_consts quiet_host loaded_state))))
  = Raise (KeyError "lyric").
Proof.
  apply (@async_unload_entry_twice_raises sample_consts quiet_host
           loaded_state true second_entry).
  - vm_compute; reflexivity.
  - compute_done.
Defined.

(** ** The entity classes *)

(** X22.  An entity of a class that does not override [_lyric_update]
    never becomes available: however many times [async_update] is
    called, each call raises [NotImplementedError] and the entity stays
    as it was. *)
Theorem async_update_not_overridden_never_available
    (cls : LyricEntity.class) (self : LyricEntity.t) (n : nat) :
  LyricEntity.lyric_update_override cls = None →
  let after :=
    Nat.iter n (λ e, snd (LyricEntity.async_update cls e)) self in
  after = self
  ∧ LyricEntity.async_update cls after = (Raise NotImplementedError, self).
Proof.
  intros Hcls after.
  assert (∀ e, LyricEntity.async_update cls e = (Raise NotImplementedError, e))
    as Hfail.
  { intros e.
    rewrite (async_update_outcome cls e (Raise NotImplementedError) e); [done|].
    unfold LyricEntity.resolve_lyric_update. by rewrite Hcls. }
  assert (after = self) as ->; [|by rewrite Hfail].
  subst after. induction n as [|n IH]; [done|].
  rewrite Nat.iter_succ, IH. by rewrite Hfail.
Qed.

Lemma async_update_not_overridden_never_available_witness :
  Nat.iter 3 (λ e, snd (LyricEntity.async_update plain_class e)) hall_climate
  = hall_climate
  ∧ LyricEntity.async_update plain_class
      (Nat.iter 3 (λ e, snd (LyricEntity.async_update plain_class e))
         hall_climate)
    = (Raise NotImplementedError, hall_climate).
Proof.
  apply (async_update_not_overridden_never_available plain_class
           hall_climate 3).
  reflexivity.
Defined.

Section device_info_properties.
Context `{Consts}.

(** X23.  For an entity bound to a thermostat, [device_info] reads the
    thermostat without changing the heap and describes it by its name,
    its id as the model, the manufacturer Honeywell and the single
    identifier made of the domain and the MAC address.  It depends on
    nothing else of the entity, so that two entities get the same
    identifiers exactly when their thermostats have the same MAC
    address. *)
Theorem device_info_identifies_by_mac
    (h : Heap) (e1 e2 : LyricEntity.t) (t1 t2 : Thermostat) :
  h !! LyricEntity.device e1 = Some (OThermostat t1) →
  h !! LyricEntity.device e2 = Some (OThermostat t2) →
  ∃ i1 i2,
    LyricDeviceEntity.device_info e1 h = (Return i1, h)
    ∧ LyricDeviceEntity.device_info e2 h = (Return i2, h)
    ∧ i1 = LyricDeviceEntity.mkInfo {[ (DOMAIN, macID t1) ]}
             (device_name t1) (device_id t1) "Honeywell"
    ∧ (LyricDeviceEntity.identifiers i1 = LyricDeviceEntity.identifiers i2
       ↔ macID t1 = macID t2).
Proof.
  intros H1 H2. eexists _, _.
  unfold LyricDeviceEntity.device_info, bind, gets. cbn [id].
  rewrite H1, H2. split_and!; try done.
  cbn [LyricDeviceEntity.identifiers]. split.
  - intros Heq. assert ((DOMAIN, macID t1) ∈ ({[ (DOMAIN, macID t2) ]} : gset _))
      as Hin by (rewrite <- Heq; by apply elem_of_singleton).
    apply elem_of_singleton in Hin. by injection Hin.
  - by intros ->.
Qed.

End device_info_properties.

Lemma device_info_identifies_by_mac_witness :
  ∃ i1 i2,
    @LyricDeviceEntity.device_info sample_consts hall_temperature two_sites
    = (Return i1, two_sites)
    ∧ @LyricDeviceEntity.device_info sample_consts hall_climate two_sites
      = (Return i2, two_sites)
    ∧ i1 = LyricDeviceEntity.mkInfo {[ ("lyric", "00D02D000010") ]}
             "Hall" "LCC-10" "Honeywell"
    ∧ (LyricDeviceEntity.identifiers i1 = LyricDeviceEntity.identifiers i2
       ↔ "00D02D000010" = "00D02D000010").
Proof.
  apply (@device_info_identifies_by_mac sample_consts two_sites
           hall_temperature hall_climate
           (mkThermostat "LCC-10" "00D02D000010" "Hall")
           (mkThermostat "LCC-10" "00D02D000010" "Hall")).
  - reflexivity.
  - reflexivity.
Defined.

(** ** The hooks in sequence *)

Section lifecycle.
Context `{Consts} `{Host}.

(** X24.  [async_setup] followed by a completed [async_setup_entry]:
    the mapping of the domain in the shared state holds the wrapper
    under its key and nothing else, whatever was stored for the domain
    before the integration was set up. *)
Theorem async_setup_then_entry_stores_one_wrapper
    (config : gmap string (gmap string string)) (s : State) (b : bool) :
  let s0 := snd (on_hass (async_setup config) s) in
  fst (async_setup_entry s0) = Return b →
  ∃ client : addr,
    hass_data (hass (snd (async_setup_entry s0))) !! DOMAIN
    = Some {[ DATA_LYRIC_CLIENT := client ]}
    ∧ is_Some (heap (snd (async_setup_entry s0)) !! client).
Proof.
  intros s0.
  assert (hass_data (hass s0) !! DOMAIN = Some ∅) as Hempty.
  { subst s0. unfold on_hass.
    destruct (async_setup config (hass s)) as [r h0] eqn:Hsetup.
    cbn [snd hass].
    assert (hass_data h0 = <[DOMAIN := ∅]> (hass_data (hass s))) as ->.
    { change h0 with (snd (r, h0)). rewrite <- Hsetup.
      unfold async_setup, bind, modify, getitem.
      case_decide; [done|].
      destruct (config !! DOMAIN) as [dc|]; [|done]. cbn [expect ret].
      destruct (dc !! CONF_CLIENT_ID); [|done]. cbn [expect ret].
      by destruct (dc !! CONF_CLIENT_SECRET). }
    apply lookup_insert_eq. }
  rewrite async_setup_entry_unfold.
  destruct (async_get_config_entry_implementation _ _) as [impl|]; [|done].
  destruct (entry_data _ !! CONF_TOKEN) as [tok|]; [|done].
  destruct (Lyric_new _ (heap s0)) as [[ly|] h1]; [|done].
  rewrite LyricClient_new_unfold.
  destruct (locations_of h1 ly) as [ls|]; [|done].
  destruct (mapM (name_of h1) ls) as [names|]; [|done].
  intros _. cbn [fst snd hass heap set_tasks set_hass_data hass_data].
  eexists. rewrite lookup_insert_eq, Hempty. split; [done|].
  by rewrite lookup_insert_eq.
Qed.

End lifecycle.

Lemma async_setup_then_entry_stores_one_wrapper_witness :
  ∃ client : addr,
    hass_data (hass (snd (@async_setup_entry sample_consts sites_host
        (snd (on_hass (@async_setup sample_consts configured) busy_state)))))
      !! "lyric"
    = Some {[ "lyric_client" := client ]}
    ∧ is_Some (heap (snd (@async_setup_entry sample_consts sites_host
        (snd (on_hass (@async_setup sample_consts configured) busy_state))))
        !! client).
Proof.
  apply (@async_setup_then_entry_stores_one_wrapper sample_consts sites_host
           configured busy_state true).
  vm_compute; reflexivity.
Defined.
